(** * CppAwait: the Awaitable state machine and its combinators

    A shallow embedding of [include/CppAwait/Awaitable.h] and
    [include/CppAwait/impl/CallbackGuard.h].

    Stackful coroutines are modelled by splitting every function that can
    suspend at its [yieldTo]: the part before the yield returns an outcome
    that says "suspended", the part after it is a separate [_resume]
    function.  Awaitables live in a heap indexed by the address of their
    [AwaitableImpl]; collections hold the result of [selectAwaitable] for
    each element, iterators are positions in the collection. *)

From stdpp Require Import base option list gmap strings.

Module CppAwait.

(** ** Data model *)

Definition ptr := nat.
Definition Coro := nat.
Definition Action := nat.

(** The master coroutine of the thread. *)
Definition masterCoro : Coro := 0.

(** [std::exception_ptr]: empty, or the identity of an exception object. *)
Definition exception_ptr := option nat.

(** [is(eptr)]: the exception handle is not empty. *)
Definition is_eptr (e : exception_ptr) : bool :=
  match e with Some _ => true | None => false end.

Inductive State := ST_Initial | ST_Running | ST_Completed | ST_Failed.

Global Instance State_eq_dec : EqDecision State.
Proof. solve_decision. Defined.

(** Modelled from the spec: the record behind [AwaitableImpl *m], which is
    declared in Awaitable.h and defined in the implementation file.  The
    fields are the ones of section 3.  [boundCoro] carries the flag "the
    coroutine has been entered"; [completerRef] is [true] while the
    Awaitable holds the shared cell that Completers refer to weakly. *)
Record AwaitableImpl := mkImpl {
  tag : string;
  state : State;
  exception : exception_ptr;
  boundCoro : option (Coro * bool);
  awaitingCoro : option Coro;
  didTakeCompleter : bool;
  completerRef : bool;
  thenSlot : option Action
}.

Definition set_state (s : State) (e : exception_ptr) (a : AwaitableImpl) :=
  mkImpl (tag a) s e (boundCoro a) (awaitingCoro a) (didTakeCompleter a)
         false (thenSlot a).

Definition set_awaitingCoro (c : option Coro) (a : AwaitableImpl) :=
  mkImpl (tag a) (state a) (exception a) (boundCoro a) c (didTakeCompleter a)
         (completerRef a) (thenSlot a).

Definition set_didTakeCompleter (a : AwaitableImpl) :=
  mkImpl (tag a) (state a) (exception a) (boundCoro a) (awaitingCoro a) true
         (completerRef a) (thenSlot a).

Definition set_thenSlot (f : Action) (a : AwaitableImpl) :=
  mkImpl (tag a) (state a) (exception a) (boundCoro a) (awaitingCoro a)
         (didTakeCompleter a) (completerRef a) (Some f).

(** The live Awaitables, by address. *)
Abbreviation heap := (gmap ptr AwaitableImpl).

(** What a call made by a master-side action leaves behind, in order. *)
Inductive event :=
| EvThen (f : Action)
| EvYieldTo (c : Coro)
| EvYieldExceptionTo (c : Coro) (e : exception_ptr).

(** [Completer]: a weak reference to the cell of one Awaitable;
    the default constructor gives a dummy with an empty reference. *)
Record Completer := mkCompleter { mRef : option ptr }.

(** ** Awaitable members *)

(** Modelled from the spec: [Awaitable::didComplete], [didFail] and [isDone]
    (declared in Awaitable.h, defined in the implementation file). *)
Definition didComplete (a : AwaitableImpl) : bool :=
  bool_decide (state a = ST_Completed).

Definition didFail (a : AwaitableImpl) : bool :=
  bool_decide (state a = ST_Failed).

Definition isDone (a : AwaitableImpl) : bool :=
  didComplete a || didFail a.

(** Modelled from the spec: the private [Awaitable::complete()] of section
    4.3.  A terminal Awaitable is left alone; otherwise the state becomes
    Completed, the cell of the Completers is released ("the first Completer
    wins, and the rest expire"), the [then] slot runs, and the awaiting
    coroutine, if any, is resumed. *)
Definition Awaitable_complete (h : heap) (p : ptr) : heap * list event :=
  match h !! p with
  | None => (h, [])
  | Some a =>
    if isDone a then (h, [])
    else
      (<[p := set_state ST_Completed None a]> h,
       match thenSlot a with Some f => [EvThen f] | None => [] end ++
       match awaitingCoro a with Some c => [EvYieldTo c] | None => [] end)
  end.

(** Modelled from the spec: the private [Awaitable::fail(eptr)]. *)
Definition Awaitable_fail (h : heap) (p : ptr) (e : exception_ptr)
  : heap * list event :=
  match h !! p with
  | None => (h, [])
  | Some a =>
    if isDone a then (h, [])
    else
      (<[p := set_state ST_Failed e a]> h,
       match thenSlot a with Some f => [EvThen f] | None => [] end ++
       match awaitingCoro a with
       | Some c => [EvYieldExceptionTo c e]
       | None => []
       end)
  end.

(** [Completer::isExpired]: [mRef.expired()]. *)
Definition isExpired (h : heap) (c : Completer) : bool :=
  match mRef c with
  | None => true
  | Some p =>
    match h !! p with
    | None => true
    | Some a => negb (completerRef a)
    end
  end.

(** Modelled from the spec: [Completer::complete()] and [Completer::fail()]
    (declared in Awaitable.h: "Does nothing if expired"). *)
Definition Completer_complete (h : heap) (c : Completer) : heap * list event :=
  if isExpired h c then (h, [])
  else match mRef c with
       | Some p => Awaitable_complete h p
       | None => (h, [])
       end.

Definition Completer_fail (h : heap) (c : Completer) (e : exception_ptr)
  : heap * list event :=
  if isExpired h c then (h, [])
  else match mRef c with
       | Some p => Awaitable_fail h p e
       | None => (h, [])
       end.

(** How a call that may suspend comes back to the coroutine that made it. *)
Inductive await_outcome :=
| AwReturn
| AwRaise (e : exception_ptr)
| AwYield (target : Coro)
| AwViolation.

(** Modelled from the spec: [Awaitable::await()] up to its yield (section
    4.3, steps 1 to 3).  Awaiting from the master coroutine, on a dead
    Awaitable, or on one that another coroutine already awaits is an
    invariant violation. *)
Definition await (cur : Coro) (h : heap) (p : ptr) : heap * await_outcome :=
  if decide (cur = masterCoro) then (h, AwViolation)
  else match h !! p with
  | None => (h, AwViolation)
  | Some a =>
    match state a with
    | ST_Completed => (h, AwReturn)
    | ST_Failed => (h, AwRaise (exception a))
    | _ =>
      if bool_decide (awaitingCoro a = None ∨ awaitingCoro a = Some cur) then
        let h' := <[p := set_awaitingCoro (Some cur) a]> h in
        match state a, boundCoro a with
        | ST_Running, Some (b, false) => (h', AwYield b)
        | _, _ => (h', AwYield masterCoro)
        end
      else (h, AwViolation)
    end
  end.

(** Modelled from the spec: [Awaitable::await()] after its yield (step 4:
    "on resumption, re-check state and act per step 1").  Being resumed
    while the Awaitable is not done is an invariant violation. *)
Definition await_resume (h : heap) (p : ptr) : await_outcome :=
  match h !! p with
  | None => AwViolation
  | Some a =>
    match state a with
    | ST_Completed => AwReturn
    | ST_Failed => AwRaise (exception a)
    | _ => AwViolation
    end
  end.

(** Modelled from the spec: [Awaitable::setAwaitingCoro] (declared in
    Awaitable.h: "Explicitly set continuation coroutine"). *)
Definition setAwaitingCoro (h : heap) (p : ptr) (c : option Coro) : heap :=
  match h !! p with
  | None => h
  | Some a => <[p := set_awaitingCoro c a]> h
  end.

(** Modelled from the spec: [Awaitable::then], [Awaitable::takeCompleter]
    (the second take is a programming error: [None]) and the destructor. *)
Definition Awaitable_then (h : heap) (p : ptr) (f : Action) : heap :=
  match h !! p with
  | None => h
  | Some a => <[p := set_thenSlot f a]> h
  end.

Definition takeCompleter (h : heap) (p : ptr) : option (heap * Completer) :=
  match h !! p with
  | None => None
  | Some a =>
    if didTakeCompleter a then None
    else Some (<[p := set_didTakeCompleter a]> h, mkCompleter (Some p))
  end.

Definition Awaitable_destroy (h : heap) (p : ptr) : heap := delete p h.

(** ** Combinators (Awaitable.h) *)

(** [selectAwaitable]: every overload projects the element to an
    [Awaitable*]; a collection is kept as the list of these projections,
    [None] being the null pointer. *)
Definition selectAwaitable (element : option ptr) : option ptr := element.

Abbreviation Collection := (list (option ptr)).

(** Iterators are positions: [begin()] is 0, [end()] is the length. *)
Definition Collection_begin (awaitables : Collection) : nat := 0.
Definition Collection_end (awaitables : Collection) : nat := length awaitables.

Inductive all_outcome :=
| AllReturn
| AllRaise (it : nat) (e : exception_ptr)
| AllYield (it : nat) (target : Coro)
| AllViolation.

(** The [for] loop of [awaitAll], entered at position [it] with [rest]
    still to visit.  The second component lists the Awaitables on which
    [await()] was called, in call order. *)
Fixpoint awaitAll_loop (cur : Coro) (h : heap) (rest : Collection) (it : nat)
  : heap * list ptr * all_outcome :=
  match rest with
  | [] => (h, [], AllReturn)
  | element :: rest' =>
    match selectAwaitable element with
    | None => awaitAll_loop cur h rest' (S it)
    | Some awt =>
      match await cur h awt with
      | (h', AwReturn) =>
        let '(h'', called, o) := awaitAll_loop cur h' rest' (S it) in
        (h'', awt :: called, o)
      | (h', AwRaise e) => (h', [awt], AllRaise it e)
      | (h', AwYield target) => (h', [awt], AllYield it target)
      | (h', AwViolation) => (h', [awt], AllViolation)
      end
    end
  end.

(** [awaitAll(Collection&)], up to the first suspension. *)
Definition awaitAll (cur : Coro) (h : heap) (awaitables : Collection)
  : heap * list ptr * all_outcome :=
  if decide (cur = masterCoro) then (h, [], AllViolation)
  else awaitAll_loop cur h awaitables (Collection_begin awaitables).

(** [awaitAll] resumed inside the [await()] of the element at [it]. *)
Definition awaitAll_resume (cur : Coro) (h : heap) (awaitables : Collection)
    (it : nat) : heap * list ptr * all_outcome :=
  match awaitables !! it with
  | Some (Some awt) =>
    match await_resume h awt with
    | AwReturn => awaitAll_loop cur h (drop (S it) awaitables) (S it)
    | AwRaise e => (h, [], AllRaise it e)
    | _ => (h, [], AllViolation)
    end
  | _ => (h, [], AllViolation)
  end.

Inductive scan_result :=
| ScanDone (it : nat)
| ScanPending (havePendingAwts : bool)
| ScanDangling.

(** First loop of [awaitAny]: stop at the first element that is done. *)
Fixpoint awaitAny_scan (h : heap) (rest : Collection) (it : nat)
    (havePendingAwts : bool) : scan_result :=
  match rest with
  | [] => ScanPending havePendingAwts
  | element :: rest' =>
    match selectAwaitable element with
    | None => awaitAny_scan h rest' (S it) havePendingAwts
    | Some awt =>
      match h !! awt with
      | None => ScanDangling
      | Some a =>
        if isDone a then ScanDone it
        else awaitAny_scan h rest' (S it) true
      end
    end
  end.

(** Second loop: [awt->setAwaitingCoro(currentCoro())] on every element. *)
Fixpoint awaitAny_register (cur : Coro) (h : heap) (rest : Collection) : heap :=
  match rest with
  | [] => h
  | element :: rest' =>
    match selectAwaitable element with
    | None => awaitAny_register cur h rest'
    | Some awt => awaitAny_register cur (setAwaitingCoro h awt (Some cur)) rest'
    end
  end.

(** Third loop, run after the yield: clear [awaitingCoro] everywhere and
    remember the first element that is done (a dangling pointer does not
    count as done). *)
Fixpoint awaitAny_collect (h : heap) (rest : Collection) (it : nat)
    (completedAwt : option ptr) (completedPos : nat)
  : heap * option ptr * nat :=
  match rest with
  | [] => (h, completedAwt, completedPos)
  | element :: rest' =>
    match selectAwaitable element with
    | None => awaitAny_collect h rest' (S it) completedAwt completedPos
    | Some awt =>
      let h' := setAwaitingCoro h awt None in
      match completedAwt, isDone <$> (h' !! awt) with
      | None, Some true => awaitAny_collect h' rest' (S it) (Some awt) it
      | _, _ => awaitAny_collect h' rest' (S it) completedAwt completedPos
      end
    end
  end.

Inductive any_outcome :=
| AnyReturn (it : nat)
| AnyYield (target : Coro)
| AnyViolation.

(** [awaitAny(Collection&)], up to [yieldTo(masterCoro())]. *)
Definition awaitAny (cur : Coro) (h : heap) (awaitables : Collection)
  : heap * any_outcome :=
  if decide (cur = masterCoro) then (h, AnyViolation)
  else match awaitAny_scan h awaitables (Collection_begin awaitables) false with
  | ScanDone it => (h, AnyReturn it)
  | ScanPending false => (h, AnyReturn (Collection_begin awaitables))
  | ScanPending true =>
    (awaitAny_register cur h awaitables, AnyYield masterCoro)
  | ScanDangling => (h, AnyViolation)
  end.

(** [awaitAny] from the return of [yieldTo(masterCoro())] on.  As the note
    on [awaitAny] in Awaitable.h has it, a failed element does not make the
    yield raise.  The two closing assertions fail when no element is done. *)
Definition awaitAny_resume (h : heap) (awaitables : Collection)
  : heap * any_outcome :=
  match awaitAny_collect h awaitables (Collection_begin awaitables) None
                         (Collection_end awaitables) with
  | (h', Some _, completedPos) => (h', AnyReturn completedPos)
  | (h', None, _) => (h', AnyViolation)
  end.

(** ** detail::CallbackWrapper (Awaitable.h) *)

Section CallbackWrapper.
(** The arguments forwarded to the callback. *)
Context {Args : Type}.

(** A callback [F]: must not throw, returns a [std::exception_ptr]; it
    may act on the heap like any other master-side code. *)
Definition Callback := Args → heap → heap * exception_ptr.

Record CallbackWrapper := mkCallbackWrapper {
  mCompleter : Completer;
  mCallback : Callback
}.

(** [Completer::wrap(func)]. *)
Definition wrap (c : Completer) (func : Callback) : CallbackWrapper :=
  mkCallbackWrapper c func.

(** [Completer::operator()()]: calls [complete()]. *)
Definition Completer_call (h : heap) (c : Completer) : heap * list event :=
  Completer_complete h c.

(** [UT_CALLBACK_WRAPPER_IMPL], the body of every [operator()] overload.
    The third component tells whether the callback ran. *)
Definition CallbackWrapper_call (w : CallbackWrapper) (args : Args) (h : heap)
  : heap * list event * bool :=
  if negb (isExpired h (mCompleter w)) then
    let '(h1, eptr) := mCallback w args h in
    if is_eptr eptr then
      let '(h2, evs) := Completer_fail h1 (mCompleter w) eptr in
      (h2, evs, true)
    else
      let '(h2, evs) := Completer_call h1 (mCompleter w) in
      (h2, evs, true)
  else (h, [], false).
End CallbackWrapper.

Arguments Callback : clear implicits.
Arguments CallbackWrapper : clear implicits.

(** ** CallbackGuard (impl/CallbackGuard.h) *)

Module Guard.

(** The [bool] cells behind the [std::shared_ptr<bool>]s, by address;
    [next] is the address [std::make_shared] hands out next. *)
Record cells := mkCells { store : gmap nat bool; next : nat }.

Record CallbackGuard := mkGuard { mIsBlocked : nat }.

(** [CallbackGuard::Token]: a second reference to the guard's cell. *)
Record Token := mkToken { tIsBlocked : nat }.

Global Instance CallbackGuard_eq_dec : EqDecision CallbackGuard.
Proof. solve_decision. Defined.

(** [CallbackGuard()]: [mIsBlocked(std::make_shared<bool>(false))]. *)
Definition CallbackGuard_new (cs : cells) : cells * CallbackGuard :=
  (mkCells (<[next cs := false]> (store cs)) (S (next cs)),
   mkGuard (next cs)).

(** [getToken()]: [Token(mIsBlocked)]. *)
Definition getToken (g : CallbackGuard) : Token := mkToken (mIsBlocked g).

(** [block()]: [*mIsBlocked = true]. *)
Definition block (cs : cells) (g : CallbackGuard) : cells :=
  mkCells (<[mIsBlocked g := true]> (store cs)) (next cs).

(** [~CallbackGuard()]: calls [block()]. *)
Definition CallbackGuard_destroy (cs : cells) (g : CallbackGuard) : cells :=
  block cs g.

(** [Token::isBlocked()]: [*mIsBlocked]. *)
Definition isBlocked (cs : cells) (t : Token) : option bool :=
  store cs !! tIsBlocked t.

(** The implicitly declared copy constructor and copy assignment (the
    class declares neither and deletes neither): the copy holds the same
    [shared_ptr], that is the same cell. *)
Definition CallbackGuard_copy (g : CallbackGuard) : CallbackGuard :=
  mkGuard (mIsBlocked g).

(** The cells together with the guard objects that are alive, by the
    address of the object. *)
Record world := mkWorld { w_cells : cells; w_guards : gmap nat CallbackGuard }.

(** What the program does with guard objects while a token is outstanding:
    construct one at address [a], copy-construct one at [a] from the object
    at [src], assign the object at [src] to the one at [dst], take a token,
    call [block()], destroy.  An operation on an address that holds no
    object, or a construction at an address that holds one, is not a
    program and is skipped. *)
Inductive gop :=
| GopNew (a : nat)
| GopCopy (a src : nat)
| GopAssign (dst src : nat)
| GopGetToken (a : nat)
| GopBlock (a : nat)
| GopDestroy (a : nat).

Definition gstep (w : world) (o : gop) : world :=
  match o with
  | GopNew a =>
    match w_guards w !! a with
    | None =>
      let '(cs, g) := CallbackGuard_new (w_cells w) in
      mkWorld cs (<[a := g]> (w_guards w))
    | Some _ => w
    end
  | GopCopy a src =>
    match w_guards w !! a, w_guards w !! src with
    | None, Some g => mkWorld (w_cells w) (<[a := CallbackGuard_copy g]> (w_guards w))
    | _, _ => w
    end
  | GopAssign dst src =>
    match w_guards w !! dst, w_guards w !! src with
    | Some _, Some g =>
      mkWorld (w_cells w) (<[dst := CallbackGuard_copy g]> (w_guards w))
    | _, _ => w
    end
  | GopGetToken _ => w
  | GopBlock a =>
    match w_guards w !! a with
    | Some g => mkWorld (block (w_cells w) g) (w_guards w)
    | None => w
    end
  | GopDestroy a =>
    match w_guards w !! a with
    | Some g =>
      mkWorld (CallbackGuard_destroy (w_cells w) g) (delete a (w_guards w))
    | None => w
    end
  end.

Definition grun (w : world) (ops : list gop) : world :=
  foldl gstep w ops.

(** [block()] is called on the object at [a], or that object is
    destroyed. *)
Definition names (a : nat) (o : gop) : bool :=
  match o with
  | GopBlock a' | GopDestroy a' => bool_decide (a' = a)
  | _ => false
  end.

(** [o] calls [block()] on, or destroys, an object that holds [cell]. *)
Definition hits (w : world) (cell : nat) (o : gop) : bool :=
  match o with
  | GopBlock a | GopDestroy a =>
    match w_guards w !! a with
    | Some g => bool_decide (mIsBlocked g = cell)
    | None => false
    end
  | _ => false
  end.

(** Some operation of [ops], run from [w], hits [cell]. *)
Fixpoint ever_hit (w : world) (cell : nat) (ops : list gop) : bool :=
  match ops with
  | [] => false
  | o :: ops' => hits w cell o || ever_hit (gstep w o) cell ops'
  end.

(** The object at [a] is neither copied from nor part of an assignment. *)
Definition unshared (a : nat) (o : gop) : bool :=
  match o with
  | GopCopy _ src => negb (bool_decide (src = a))
  | GopAssign dst src => negb (bool_decide (dst = a)) && negb (bool_decide (src = a))
  | _ => true
  end.

End Guard.

(** ** One coroutine against the master context

    The coroutine [cur] runs one of the combinators; everything else that
    happens on the thread is a script of master-side actions.  A completer
    call that finds [cur] registered as awaiting coroutine transfers control
    to it, and the script goes on when [cur] suspends again or ends.  A
    [then] slot that runs and a resumed coroutine other than [cur] are
    logged as events; what their bodies do to the Awaitables belongs to the
    script. *)

(** Where the coroutine is suspended. *)
Inductive cont :=
| KAwaitAll (awaitables : Collection) (it : nat)
| KAwaitAny (awaitables : Collection)
| KNever.

Inductive coresult :=
| RVoid
| RPos (it : nat)
| RRaised (e : exception_ptr)
| RViolation.

Inductive costate :=
| CoSuspended (k : cont)
| CoDone (r : coresult).

Record sys := mkSys {
  s_heap : heap;
  s_completers : list Completer;
  s_log : list event;
  s_called : list ptr;
  s_co : costate
}.

Definition costate_of_all (awaitables : Collection) (o : all_outcome) : costate :=
  match o with
  | AllReturn => CoDone RVoid
  | AllRaise _ e => CoDone (RRaised e)
  | AllYield it _ => CoSuspended (KAwaitAll awaitables it)
  | AllViolation => CoDone RViolation
  end.

Definition costate_of_any (awaitables : Collection) (o : any_outcome) : costate :=
  match o with
  | AnyReturn it => CoDone (RPos it)
  | AnyYield _ => CoSuspended (KAwaitAny awaitables)
  | AnyViolation => CoDone RViolation
  end.

(** The coroutine continues from its suspension point. *)
Definition resume (cur : Coro) (h : heap) (k : cont) : heap * list ptr * costate :=
  match k with
  | KAwaitAll awaitables it =>
    let '(h', called, o) := awaitAll_resume cur h awaitables it in
    (h', called, costate_of_all awaitables o)
  | KAwaitAny awaitables =>
    let '(h', o) := awaitAny_resume h awaitables in
    (h', [],
     match o with AnyReturn it => CoDone (RPos it) | _ => CoDone RViolation end)
  | KNever => (h, [], CoDone RVoid)
  end.

(** Modelled from the spec: the end of a coroutine started by [startAsync]
    (section 2: "when the body returns normally the Awaitable completes; an
    uncaught exception fails it"); [bound] is its Awaitable, if any. *)
Definition finish (bound : option ptr) (h : heap) (co : costate)
  : heap * list event :=
  match bound, co with
  | Some pc, CoDone RVoid | Some pc, CoDone (RPos _) => Awaitable_complete h pc
  | Some pc, CoDone (RRaised e) => Awaitable_fail h pc e
  | _, _ => (h, [])
  end.

Definition resumes (cur : Coro) (ev : event) : bool :=
  match ev with
  | EvYieldTo c | EvYieldExceptionTo c _ => bool_decide (c = cur)
  | EvThen _ => false
  end.

(** The effect of a completer call on the whole system. *)
Definition deliver (cur : Coro) (bound : option ptr) (s : sys)
    (h : heap) (evs : list event) : sys :=
  match s_co s with
  | CoSuspended k =>
    if existsb (resumes cur) evs then
      let '(h1, called, co) := resume cur h k in
      let '(h2, evs') := finish bound h1 co in
      mkSys h2 (s_completers s) (s_log s ++ evs ++ evs')
            (s_called s ++ called) co
    else mkSys h (s_completers s) (s_log s ++ evs) (s_called s) (s_co s)
  | CoDone _ => mkSys h (s_completers s) (s_log s ++ evs) (s_called s) (s_co s)
  end.

(** Master-side actions. *)
Inductive mop :=
| OpNew (t : string)
| OpTake (p : ptr)
| OpComplete (k : nat)
| OpFail (k : nat) (e : exception_ptr)
| OpThen (p : ptr) (f : Action).

(** Modelled from the spec: [Awaitable(tag)], an external-driven Awaitable
    in state Initial at a fresh address. *)
Definition Awaitable_new (h : heap) (t : string) : heap * ptr :=
  let p := fresh (dom h) in
  (<[p := mkImpl t ST_Initial None None None false true None]> h, p).

(** One master-side action; [None] is a programming error that stops the
    program (a second [takeCompleter], a completer that was never issued). *)
Definition mstep (cur : Coro) (bound : option ptr) (s : sys) (o : mop)
  : option sys :=
  match o with
  | OpNew t =>
    Some (mkSys (fst (Awaitable_new (s_heap s) t)) (s_completers s) (s_log s)
                (s_called s) (s_co s))
  | OpTake p =>
    '(h, c) ← takeCompleter (s_heap s) p;
    Some (mkSys h (s_completers s ++ [c]) (s_log s) (s_called s) (s_co s))
  | OpComplete k =>
    c ← s_completers s !! k;
    let '(h, evs) := Completer_complete (s_heap s) c in
    Some (deliver cur bound s h evs)
  | OpFail k e =>
    c ← s_completers s !! k;
    let '(h, evs) := Completer_fail (s_heap s) c e in
    Some (deliver cur bound s h evs)
  | OpThen p f =>
    Some (mkSys (Awaitable_then (s_heap s) p f) (s_completers s) (s_log s)
                (s_called s) (s_co s))
  end.

Fixpoint run (cur : Coro) (bound : option ptr) (s : sys) (script : list mop)
  : sys :=
  match script with
  | [] => s
  | o :: script' =>
    match mstep cur bound s o with
    | Some s' => run cur bound s' script'
    | None => s
    end
  end.

(** The coroutine enters [awaitAll] / [awaitAny]. *)
Definition enter_awaitAll (cur : Coro) (s : sys) (awaitables : Collection) : sys :=
  let '(h, called, o) := awaitAll cur (s_heap s) awaitables in
  mkSys h (s_completers s) (s_log s) (s_called s ++ called)
        (costate_of_all awaitables o).

Definition enter_awaitAny (cur : Coro) (s : sys) (awaitables : Collection) : sys :=
  let '(h, o) := awaitAny cur (s_heap s) awaitables in
  mkSys h (s_completers s) (s_log s) (s_called s) (costate_of_any awaitables o).

(** The lambda of [asyncAny], up to its first suspension. *)
Definition asyncAny_body (cur : Coro) (h : heap) (awaitables : Collection)
  : heap * costate :=
  match awaitables with
  | [] => (h, CoSuspended KNever)
  | _ =>
    let '(h', o) := awaitAny cur h awaitables in
    (h', costate_of_any awaitables o)
  end.

(** [asyncAny(awaitables, pos)]: [startAsync("asyncAny", lambda)].
    Modelled from the spec: [startAsync] (section 4.2) puts a new Awaitable
    in state Running, bound to the new coroutine [cur] and with its
    completer already taken, and runs the body up to its first suspension.
    Awaitable.h also speaks of a coroutine that has not yet started when
    [startAsync] returns; what is proved about the composite Awaitable below
    is about its state over a whole run, not about the moment of return. *)
Definition asyncAny (cur : Coro) (s : sys) (awaitables : Collection) : sys * ptr :=
  let pc := fresh (dom (s_heap s)) in
  let h0 := <[pc := mkImpl "asyncAny" ST_Running None (Some (cur, true)) None
                           true true None]> (s_heap s) in
  let '(h1, co) := asyncAny_body cur h0 awaitables in
  let '(h2, evs) := finish (Some pc) h1 co in
  (mkSys h2 (s_completers s) (s_log s ++ evs) (s_called s) co, pc).

(** The lambda of [asyncAll], up to its first suspension. *)
Definition asyncAll_body (cur : Coro) (h : heap) (awaitables : Collection)
  : heap * list ptr * costate :=
  let '(h', called, o) := awaitAll cur h awaitables in
  (h', called, costate_of_all awaitables o).

(** [asyncAll(awaitables)]: [startAsync("asyncAll", lambda)], with
    [startAsync] modelled from the spec as for [asyncAny]. *)
Definition asyncAll (cur : Coro) (s : sys) (awaitables : Collection) : sys * ptr :=
  let pc := fresh (dom (s_heap s)) in
  let h0 := <[pc := mkImpl "asyncAll" ST_Running None (Some (cur, true)) None
                           true true None]> (s_heap s) in
  let '(h1, called, co) := asyncAll_body cur h0 awaitables in
  let '(h2, evs) := finish (Some pc) h1 co in
  (mkSys h2 (s_completers s) (s_log s ++ evs) (s_called s ++ called) co, pc).

(** ** Convenience overloads (Awaitable.h) *)

(** What an overload that returns an [Awaitable*] comes back with. *)
Inductive ptr_outcome :=
| PtrReturn (awt : option ptr)
| PtrYield (target : Coro)
| PtrViolation.

(** [ut_assert_(awt1 && awt2 && ...)]. *)
Definition all_nonnull (awts : list (option ptr)) : bool :=
  forallb (λ awt, match awt with Some _ => true | None => false end) awts.

(** [awaitAny(Awaitable *awt1, ..., Awaitable *awtN)] for N from 2 to 5, the
    arguments given as the list that fills the [std::array]: the assertion,
    then [*awaitAny(awts)], up to the yield. *)
Definition awaitAny_ptrs (cur : Coro) (h : heap) (awts : list (option ptr))
  : heap * ptr_outcome :=
  if all_nonnull awts then
    match awaitAny cur h awts with
    | (h', AnyReturn it) =>
      (h', match awts !! it with
           | Some awt => PtrReturn awt
           | None => PtrViolation
           end)
    | (h', AnyYield target) => (h', PtrYield target)
    | (h', AnyViolation) => (h', PtrViolation)
    end
  else (h, PtrViolation).

(** The same overloads, from the return of the yield on. *)
Definition awaitAny_ptrs_resume (h : heap) (awts : list (option ptr))
  : heap * ptr_outcome :=
  match awaitAny_resume h awts with
  | (h', AnyReturn it) =>
    (h', match awts !! it with
         | Some awt => PtrReturn awt
         | None => PtrViolation
         end)
  | (h', _) => (h', PtrViolation)
  end.


End CppAwait.

(** * Properties *)

Module Props.
Import CppAwait.

(** ** Auxiliary definitions *)

(** [element] selects a live Awaitable that is done. *)
Definition done_at (h : heap) (element : option ptr) : bool :=
  match selectAwaitable element with
  | Some p => match h !! p with Some a => isDone a | None => false end
  | None => false
  end.

(** [element] selects a live Awaitable that is not done, or nothing. *)
Definition pending_at (h : heap) (element : option ptr) : Prop :=
  ∀ q, element = Some q → ∃ a, h !! q = Some a ∧ isDone a = false.

(** [element] selects a live Awaitable, or nothing. *)
Definition live_at (h : heap) (element : option ptr) : Prop :=
  ∀ q, element = Some q → is_Some (h !! q).

(** Every selected element of the collection is a live Awaitable. *)
Definition all_live (h : heap) (awaitables : Collection) : Prop :=
  Forall (live_at h) awaitables.

(** The Awaitables a collection selects, in iterator order. *)
Definition selected (awaitables : Collection) : list ptr :=
  omap selectAwaitable awaitables.

(** The order of the states: Initial, then Running, then one of the two
    terminal states, which are not left again. *)
Definition state_mono (s s' : State) : bool :=
  match s, s' with
  | ST_Initial, _ => true
  | ST_Running, ST_Initial => false
  | ST_Running, _ => true
  | ST_Completed, ST_Completed => true
  | ST_Failed, ST_Failed => true
  | _, _ => false
  end.

(** From [h] to [h'] only [awaitingCoro] fields have changed. *)
Definition only_awaiting (h h' : heap) : Prop :=
  ∀ q, h' !! q = h !! q ∨
       ∃ c a, h !! q = Some a ∧ h' !! q = Some (set_awaitingCoro c a).

(** From [h] to [h'] every Awaitable is still there, has moved forward in
    the state order, and is the same in state and exception if it was done. *)
Definition evolves (h h' : heap) : Prop :=
  ∀ q a, h !! q = Some a →
    ∃ a', h' !! q = Some a' ∧ state_mono (state a) (state a') = true ∧
          (isDone a = true → state a' = state a ∧ exception a' = exception a).

(** Everything the program can do with the Awaitables of a heap. *)
Inductive aop :=
| ACompleterComplete (c : Completer)
| ACompleterFail (c : Completer) (e : exception_ptr)
| AAwait (cur : Coro) (q : ptr)
| ASetAwaitingCoro (q : ptr) (c : option Coro)
| AThen (q : ptr) (f : Action)
| ATakeCompleter (q : ptr)
| ANew (t : string)
| ADestroy (q : ptr)
| AAwaitAll (cur : Coro) (awaitables : Collection)
| AAwaitAllResume (cur : Coro) (awaitables : Collection) (it : nat)
| AAwaitAny (cur : Coro) (awaitables : Collection)
| AAwaitAnyResume (awaitables : Collection).

Definition astep (h : heap) (o : aop) : heap :=
  match o with
  | ACompleterComplete c => fst (Completer_complete h c)
  | ACompleterFail c e => fst (Completer_fail h c e)
  | AAwait cur q => fst (await cur h q)
  | ASetAwaitingCoro q c => setAwaitingCoro h q c
  | AThen q f => Awaitable_then h q f
  | ATakeCompleter q =>
    match takeCompleter h q with Some (h', _) => h' | None => h end
  | ANew t => fst (Awaitable_new h t)
  | ADestroy q => Awaitable_destroy h q
  | AAwaitAll cur awaitables => fst (fst (awaitAll cur h awaitables))
  | AAwaitAllResume cur awaitables it =>
    fst (fst (awaitAll_resume cur h awaitables it))
  | AAwaitAny cur awaitables => fst (awaitAny cur h awaitables)
  | AAwaitAnyResume awaitables => fst (awaitAny_resume h awaitables)
  end.

Definition arun (h : heap) (ops : list aop) : heap := foldl astep h ops.

(** [n] calls of [await()] in a row, with what each call came back with. *)
Fixpoint await_n (cur : Coro) (h : heap) (p : ptr) (n : nat)
  : heap * list await_outcome :=
  match n with
  | 0 => (h, [])
  | S n' =>
    let '(h', o) := await cur h p in
    let '(h'', os) := await_n cur h' p n' in
    (h'', o :: os)
  end.

Definition h_xy : heap :=
  <[1 := mkImpl "x" ST_Completed None None None true false None]>
  (<[2 := mkImpl "y" ST_Completed None None None true false None]> ∅).

Definition h_mixed : heap :=
  <[1 := mkImpl "p" ST_Initial None None None false true None]>
  (<[2 := mkImpl "f" ST_Failed (Some 7) None None true false None]>
  (<[3 := mkImpl "c" ST_Completed None None None true false None]> ∅)).

(** [element] selects a live Awaitable in state Completed, or nothing. *)
Definition completed_at (h : heap) (element : option ptr) : Prop :=
  ∀ q, element = Some q → ∃ a, h !! q = Some a ∧ state a = ST_Completed.

(** What holds of the system while and after the coroutine runs
    [awaitAll(awaitables)]; [c0] are the [await()] calls made before it. *)
Definition awaitAll_inv (c0 : list ptr) (awaitables : Collection) (s : sys)
  : Prop :=
  match s_co s with
  | CoSuspended (KAwaitAll l it) =>
    l = awaitables ∧ (∃ p, awaitables !! it = Some (Some p)) ∧
    s_called s = c0 ++ selected (take (S it) awaitables) ∧
    Forall (completed_at (s_heap s)) (take it awaitables)
  | CoDone RVoid =>
    s_called s = c0 ++ selected awaitables ∧
    Forall (completed_at (s_heap s)) awaitables
  | CoDone (RRaised e) =>
    ∃ it p a,
      awaitables !! it = Some (Some p) ∧
      s_heap s !! p = Some a ∧ state a = ST_Failed ∧ exception a = e ∧
      s_called s = c0 ++ selected (take (S it) awaitables) ∧
      Forall (completed_at (s_heap s)) (take it awaitables)
  | CoDone RViolation =>
    ∃ n, s_called s = c0 ++ selected (take n awaitables)
  | _ => False
  end.

Definition h_all : heap :=
  <[1 := mkImpl "a" ST_Completed None None None true false None]>
  (<[2 := mkImpl "b" ST_Initial None None None true true None]>
  (<[3 := mkImpl "c" ST_Initial None None None true true None]>
  (<[4 := mkImpl "d" ST_Initial None None None true true None]> ∅))).

Definition s_all : sys :=
  mkSys h_all [mkCompleter (Some 2); mkCompleter (Some 3); mkCompleter (Some 4)]
        [] [] (CoDone RVoid).

(** [element] selects a live Awaitable that is not done and has [cur] as
    its awaiting coroutine, or nothing. *)
Definition waiting_at (cur : Coro) (h : heap) (element : option ptr) : Prop :=
  ∀ q, element = Some q →
    ∃ a, h !! q = Some a ∧ isDone a = false ∧ awaitingCoro a = Some cur.

(** [element] selects a live Awaitable without awaiting coroutine, or
    nothing. *)
Definition cleared_at (h : heap) (element : option ptr) : Prop :=
  ∀ q, element = Some q → ∃ a, h !! q = Some a ∧ awaitingCoro a = None.

(** The pending Awaitables that have [cur] as awaiting coroutine are all
    selected by the collection. *)
Definition only_registered (cur : Coro) (awaitables : Collection) (h : heap)
  : Prop :=
  ∀ q a, h !! q = Some a → awaitingCoro a = Some cur → isDone a = false →
         Some q ∈ awaitables.

(** The completer that a master-side action calls, if it calls one. *)
Definition completer_op (cs : list Completer) (o : mop) : option Completer :=
  match o with
  | OpComplete k | OpFail k _ => cs !! k
  | _ => None
  end.

(** From [h] to [h'] no Awaitable has changed its state or its awaiting
    coroutine, and the new ones have no awaiting coroutine. *)
Definition same_waiters (h h' : heap) : Prop :=
  ∀ q, match h !! q, h' !! q with
       | Some a, Some a' =>
         state a' = state a ∧ awaitingCoro a' = awaitingCoro a
       | None, Some a' => awaitingCoro a' = None
       | None, None => True
       | Some _, None => False
       end.

Definition h_any : heap :=
  <[1 := mkImpl "a" ST_Initial None None None true true None]>
  (<[2 := mkImpl "b" ST_Initial None None None true true (Some 8)]>
  (<[3 := mkImpl "c" ST_Initial None None None true true None]> ∅)).

Definition s_any : sys :=
  mkSys h_any [mkCompleter (Some 1); mkCompleter (Some 2); mkCompleter (Some 3)]
        [] [] (CoDone RVoid).

(** No Awaitable has [cur] as its awaiting coroutine. *)
Definition no_waiter (cur : Coro) (h : heap) : Prop :=
  ∀ q a, h !! q = Some a → awaitingCoro a ≠ Some cur.

(** The composite Awaitable of [asyncAny] on an empty collection, with its
    coroutine parked at [yieldTo(masterCoro())]. *)
Definition never_inv (cur : Coro) (pc : ptr) (s : sys) : Prop :=
  s_co s = CoSuspended KNever ∧
  (∃ a, s_heap s !! pc = Some a ∧ state a = ST_Running ∧
        didTakeCompleter a = true) ∧
  no_waiter cur (s_heap s) ∧
  Forall (λ c, mRef c ≠ Some pc) (s_completers s).

Definition a_done : AwaitableImpl :=
  mkImpl "f" ST_Failed (Some 7) None (Some 4) true false None.

Definition cb_fail (e : nat) : Callback nat :=
  λ arg h, (Awaitable_then h 3 arg, Some e).

Definition h_ext : heap :=
  <[3 := mkImpl "ext" ST_Initial None None (Some 5) true true None]> ∅.

(** The composite Awaitable [pc] of a coroutine started by [asyncAll] or
    [asyncAny] mirrors the coroutine: Running while the body is suspended
    (or stopped on an assertion), Completed once the body has returned,
    Failed with the exception that left the body; and no completer was
    issued for it. *)
Definition bound_inv (pc : ptr) (s : sys) : Prop :=
  Forall (λ c, mRef c ≠ Some pc) (s_completers s) ∧
  ∃ a, s_heap s !! pc = Some a ∧ didTakeCompleter a = true ∧
       match s_co s with
       | CoSuspended _ | CoDone RViolation => state a = ST_Running
       | CoDone RVoid | CoDone (RPos _) => state a = ST_Completed
       | CoDone (RRaised e) => state a = ST_Failed ∧ exception a = e
       end.

(** The coroutine of [asyncAny] on a collection that is not empty is
    suspended in [awaitAny], has returned a position, or was stopped. *)
Definition any_shape (awaitables : Collection) (co : costate) : Prop :=
  match co with
  | CoSuspended k => k = KAwaitAny awaitables
  | CoDone (RPos _) | CoDone RViolation => True
  | CoDone _ => False
  end.

(** Every completer handed out so far refers to a live Awaitable.  (An
    address may be handed out again after its Awaitable is destroyed, so a
    completer of a destroyed Awaitable is kept apart from the Awaitables
    created afterwards by this condition.) *)
Definition completers_live (s : sys) : Prop :=
  Forall (λ c, ∀ p, mRef c = Some p → is_Some (s_heap s !! p))
         (s_completers s).

(** Some element of the collection selects an Awaitable. *)
Definition has_selected (awaitables : Collection) : bool :=
  existsb (λ e, match selectAwaitable e with Some _ => true | None => false end)
          awaitables.

(** [element] selects a live Awaitable which, if it is pending, has no
    awaiting coroutine other than [cur]; or it selects nothing. *)
Definition free_at (cur : Coro) (h : heap) (element : option ptr) : Prop :=
  ∀ q, element = Some q →
    ∃ a, h !! q = Some a ∧
         (isDone a = false →
          awaitingCoro a = None ∨ awaitingCoro a = Some cur).

(** The only pending Awaitable that has [cur] as awaiting coroutine is
    [who]; none at all when [who] is [None]. *)
Definition awaits_only (cur : Coro) (h : heap) (who : option ptr) : Prop :=
  ∀ q b, h !! q = Some b → awaitingCoro b = Some cur → isDone b = false →
         who = Some q.

(** From [h] to [h'] every Awaitable is still there with the same awaiting
    coroutine, and done if it was. *)
Definition keeps_waiters (h h' : heap) : Prop :=
  ∀ q a, h !! q = Some a →
    ∃ a', h' !! q = Some a' ∧ awaitingCoro a' = awaitingCoro a ∧
          (isDone a = true → isDone a' = true).

(** From [h] to [h'] no pending Awaitable has got [cur] as awaiting
    coroutine. *)
Definition no_new_waiters (cur : Coro) (h h' : heap) : Prop :=
  ∀ q b', h' !! q = Some b' → awaitingCoro b' = Some cur → isDone b' = false →
    ∃ b, h !! q = Some b ∧ awaitingCoro b = Some cur ∧ isDone b = false.

(** From [h] to [h'] the pending Awaitables that [cur] awaits are still
    pending and still awaited by [cur]. *)
Definition stays_waiting (cur : Coro) (h h' : heap) : Prop :=
  ∀ q b, h !! q = Some b → awaitingCoro b = Some cur → isDone b = false →
    ∃ b', h' !! q = Some b' ∧ awaitingCoro b' = Some cur ∧ isDone b' = false.

(** The state of the system while and after the coroutine [cur] runs
    [awaitAll(awaitables)], [c0] being the [await()] calls made before:
    - suspended in the [await()] of the element at [it], which is pending
      and awaited by [cur] alone, the elements before it Completed, the
      calls made so far those of the elements up to [it];
    - returned, every selected element Completed and awaited;
    - raised [e], the stored exception of a Failed element, the elements
      before it Completed, the calls stopping at it.
    No assertion has failed. *)
Definition awaitAll_state (cur : Coro) (c0 : list ptr)
    (awaitables : Collection) (s : sys) : Prop :=
  Forall (free_at cur (s_heap s)) awaitables ∧
  match s_co s with
  | CoSuspended (KAwaitAll l it) =>
    l = awaitables ∧
    ∃ p a, awaitables !! it = Some (Some p) ∧
           s_heap s !! p = Some a ∧ isDone a = false ∧
           awaitingCoro a = Some cur ∧
           awaits_only cur (s_heap s) (Some p) ∧
           s_called s = c0 ++ selected (take (S it) awaitables) ∧
           Forall (completed_at (s_heap s)) (take it awaitables)
  | CoDone RVoid =>
    s_called s = c0 ++ selected awaitables ∧
    Forall (completed_at (s_heap s)) awaitables
  | CoDone (RRaised e) =>
    ∃ it p a,
      awaitables !! it = Some (Some p) ∧
      s_heap s !! p = Some a ∧ state a = ST_Failed ∧ exception a = e ∧
      s_called s = c0 ++ selected (take (S it) awaitables) ∧
      Forall (completed_at (s_heap s)) (take it awaitables)
  | _ => False
  end.

(** [awaitAll] has gone on past position [it]: it is suspended at a later
    element, has returned, or has raised. *)
Definition went_on (it : nat) (co : costate) : Prop :=
  match co with
  | CoSuspended (KAwaitAll _ it') => it < it'
  | CoDone RVoid | CoDone (RRaised _) => True
  | _ => False
  end.

Definition w_empty : Guard.world :=
  Guard.mkWorld (Guard.mkCells ∅ 0) ∅.



(** ** Tactics *)

Ltac solve_all_live :=
  unfold all_live; repeat constructor; intros ? [= <-]; vm_compute; eauto.


(** ** How the operations change the heap *)

Lemma state_mono_refl (s : State) : state_mono s s = true.
Proof. by destruct s. Qed.

Lemma state_mono_trans (s1 s2 s3 : State) :
  state_mono s1 s2 = true → state_mono s2 s3 = true → state_mono s1 s3 = true.
Proof. by destruct s1, s2, s3. Qed.

Lemma isDone_state (a : AwaitableImpl) :
  isDone a = true ↔ state a = ST_Completed ∨ state a = ST_Failed.
Proof.
  unfold isDone, didComplete, didFail.
  destruct (state a); simpl; split; intros H; try done; try tauto;
    destruct H; done.
Qed.

Lemma only_awaiting_refl (h : heap) : only_awaiting h h.
Proof. intros q. by left. Qed.

Lemma only_awaiting_trans (h1 h2 h3 : heap) :
  only_awaiting h1 h2 → only_awaiting h2 h3 → only_awaiting h1 h3.
Proof.
  intros H12 H23 q.
  destruct (H12 q) as [E12|(c & a & Ha & E12)],
           (H23 q) as [E23|(c' & a' & Ha' & E23)].
  - left. congruence.
  - right. exists c', a'. split; congruence.
  - right. exists c, a. split; congruence.
  - right. exists c', a. split; [done|]. rewrite E23.
    rewrite E12 in Ha'. by injection Ha' as <-.
Qed.

Lemma evolves_refl (h : heap) : evolves h h.
Proof.
  intros q a Ha. exists a. split; [done|]. split; [apply state_mono_refl|done].
Qed.

Lemma evolves_trans (h1 h2 h3 : heap) :
  evolves h1 h2 → evolves h2 h3 → evolves h1 h3.
Proof.
  intros H12 H23 q a Ha.
  destruct (H12 q a Ha) as (a2 & Ha2 & Hm2 & Hd2).
  destruct (H23 q a2 Ha2) as (a3 & Ha3 & Hm3 & Hd3).
  exists a3. split; [done|]. split; [by eapply state_mono_trans|].
  intros Hd. destruct (Hd2 Hd) as [Hs He].
  assert (isDone a2 = true) as Hd'
      by (unfold isDone, didComplete, didFail in *; by rewrite Hs).
  destruct (Hd3 Hd') as [Hs' He']. split; congruence.
Qed.

Lemma only_awaiting_evolves (h h' : heap) : only_awaiting h h' → evolves h h'.
Proof.
  intros Ho q a Ha. destruct (Ho q) as [E|(c & a0 & Ha0 & E)].
  - exists a. split; [congruence|]. split; [apply state_mono_refl|done].
  - exists (set_awaitingCoro c a0). split; [done|].
    assert (a0 = a) as -> by congruence. simpl.
    split; [apply state_mono_refl|done].
Qed.

Lemma insert_only_awaiting (h : heap) (p : ptr) (a : AwaitableImpl)
    (c : option Coro) :
  h !! p = Some a → only_awaiting h (<[p := set_awaitingCoro c a]> h).
Proof.
  intros Ha q. destruct (decide (q = p)) as [->|Hne].
  - right. exists c, a. by rewrite lookup_insert_eq.
  - left. by rewrite lookup_insert_ne.
Qed.

Lemma setAwaitingCoro_lookup (h : heap) (p q : ptr) (c : option Coro) :
  setAwaitingCoro h p c !! q =
    if decide (q = p) then set_awaitingCoro c <$> h !! q else h !! q.
Proof.
  unfold setAwaitingCoro. destruct (decide (q = p)) as [->|Hne].
  - destruct (h !! p) as [a|] eqn:Ha; simpl.
    + by rewrite lookup_insert_eq.
    + by rewrite Ha.
  - destruct (h !! p) as [a|] eqn:Ha; [by rewrite lookup_insert_ne | done].
Qed.

Lemma setAwaitingCoro_only (h : heap) (p : ptr) (c : option Coro) :
  only_awaiting h (setAwaitingCoro h p c).
Proof.
  unfold setAwaitingCoro. destruct (h !! p) as [a|] eqn:Ha.
  - by apply insert_only_awaiting.
  - apply only_awaiting_refl.
Qed.

Lemma await_only (cur : Coro) (h : heap) (p : ptr) :
  only_awaiting h (fst (await cur h p)).
Proof.
  unfold await. destruct (decide (cur = masterCoro)); [apply only_awaiting_refl|].
  destruct (h !! p) as [a|] eqn:Ha; [|apply only_awaiting_refl].
  destruct (state a); try apply only_awaiting_refl;
    case_bool_decide; try apply only_awaiting_refl;
    repeat case_match; simpl; by apply insert_only_awaiting.
Qed.

Lemma awaitAll_loop_only (cur : Coro) (rest : Collection) :
  ∀ h it, only_awaiting h (fst (fst (awaitAll_loop cur h rest it))).
Proof.
  induction rest as [|[awt|] rest IH]; intros h it; simpl.
  - apply only_awaiting_refl.
  - pose proof (await_only cur h awt) as Ha.
    destruct (await cur h awt) as [h' [ | e | t | ]]; simpl in *; try done.
    specialize (IH h' (S it)).
    destruct (awaitAll_loop cur h' rest (S it)) as [[h'' called] o]; simpl in *.
    by eapply only_awaiting_trans.
  - apply IH.
Qed.

Lemma awaitAll_only (cur : Coro) (h : heap) (awaitables : Collection) :
  only_awaiting h (fst (fst (awaitAll cur h awaitables))).
Proof.
  unfold awaitAll. destruct (decide (cur = masterCoro)).
  - apply only_awaiting_refl.
  - apply awaitAll_loop_only.
Qed.

Lemma awaitAll_resume_only (cur : Coro) (h : heap) (awaitables : Collection)
    (it : nat) :
  only_awaiting h (fst (fst (awaitAll_resume cur h awaitables it))).
Proof.
  unfold awaitAll_resume.
  destruct (awaitables !! it) as [[awt|]|]; try apply only_awaiting_refl.
  destruct (await_resume h awt); try apply only_awaiting_refl.
  apply awaitAll_loop_only.
Qed.

Lemma awaitAny_register_only (cur : Coro) (rest : Collection) :
  ∀ h, only_awaiting h (awaitAny_register cur h rest).
Proof.
  induction rest as [|[awt|] rest IH]; intros h; simpl.
  - apply only_awaiting_refl.
  - eapply only_awaiting_trans; [apply setAwaitingCoro_only | apply IH].
  - apply IH.
Qed.

Lemma awaitAny_collect_only (rest : Collection) :
  ∀ h it ca cp, only_awaiting h (fst (fst (awaitAny_collect h rest it ca cp))).
Proof.
  induction rest as [|[awt|] rest IH]; intros h it ca cp; simpl.
  - apply only_awaiting_refl.
  - eapply only_awaiting_trans; [apply (setAwaitingCoro_only h awt None)|].
    repeat case_match; apply IH.
  - apply IH.
Qed.

Lemma awaitAny_only (cur : Coro) (h : heap) (awaitables : Collection) :
  only_awaiting h (fst (awaitAny cur h awaitables)).
Proof.
  unfold awaitAny. repeat case_match; simpl; try apply only_awaiting_refl.
  apply awaitAny_register_only.
Qed.

Lemma awaitAny_resume_only (h : heap) (awaitables : Collection) :
  only_awaiting h (fst (awaitAny_resume h awaitables)).
Proof.
  unfold awaitAny_resume.
  pose proof (awaitAny_collect_only awaitables h (Collection_begin awaitables)
                None (Collection_end awaitables)) as Hc.
  destruct (awaitAny_collect _ _ _ _ _) as [[h' [ca|]] cp]; done.
Qed.

Lemma insert_evolves (h : heap) (p : ptr) (a a' : AwaitableImpl) :
  h !! p = Some a →
  state_mono (state a) (state a') = true →
  (isDone a = true → state a' = state a ∧ exception a' = exception a) →
  evolves h (<[p := a']> h).
Proof.
  intros Ha Hm Hd q b Hb. destruct (decide (q = p)) as [->|Hne].
  - exists a'. rewrite lookup_insert_eq. assert (b = a) as -> by congruence.
    done.
  - exists b. rewrite lookup_insert_ne by done.
    split; [done|]. split; [apply state_mono_refl|done].
Qed.

Lemma Awaitable_complete_evolves (h : heap) (p : ptr) :
  evolves h (fst (Awaitable_complete h p)).
Proof.
  unfold Awaitable_complete. destruct (h !! p) as [a|] eqn:Ha;
    [|apply evolves_refl].
  destruct (isDone a) eqn:Hd; [apply evolves_refl|]. simpl.
  apply (insert_evolves h p a); [done| |congruence].
  simpl. destruct (state a) eqn:Hs; try done;
    unfold isDone, didComplete, didFail in Hd; rewrite Hs in Hd; done.
Qed.

Lemma Awaitable_fail_evolves (h : heap) (p : ptr) (e : exception_ptr) :
  evolves h (fst (Awaitable_fail h p e)).
Proof.
  unfold Awaitable_fail. destruct (h !! p) as [a|] eqn:Ha;
    [|apply evolves_refl].
  destruct (isDone a) eqn:Hd; [apply evolves_refl|]. simpl.
  apply (insert_evolves h p a); [done| |congruence].
  simpl. destruct (state a) eqn:Hs; try done;
    unfold isDone, didComplete, didFail in Hd; rewrite Hs in Hd; done.
Qed.

Lemma Completer_complete_evolves (h : heap) (c : Completer) :
  evolves h (fst (Completer_complete h c)).
Proof.
  unfold Completer_complete. repeat case_match; try apply evolves_refl.
  apply Awaitable_complete_evolves.
Qed.

Lemma Completer_fail_evolves (h : heap) (c : Completer) (e : exception_ptr) :
  evolves h (fst (Completer_fail h c e)).
Proof.
  unfold Completer_fail. repeat case_match; try apply evolves_refl.
  apply Awaitable_fail_evolves.
Qed.

Lemma Awaitable_then_evolves (h : heap) (p : ptr) (f : Action) :
  evolves h (Awaitable_then h p f).
Proof.
  unfold Awaitable_then. destruct (h !! p) as [a|] eqn:Ha;
    [|apply evolves_refl].
  apply (insert_evolves h p a); [done|apply state_mono_refl|done].
Qed.

Lemma takeCompleter_evolves (h h' : heap) (p : ptr) (c : Completer) :
  takeCompleter h p = Some (h', c) → evolves h h'.
Proof.
  unfold takeCompleter. destruct (h !! p) as [a|] eqn:Ha; [|done].
  destruct (didTakeCompleter a); [done|]. intros [= <- <-].
  apply (insert_evolves h p a); [done|apply state_mono_refl|done].
Qed.

Lemma Awaitable_new_fresh (h : heap) (t : string) :
  h !! snd (Awaitable_new h t) = None.
Proof. simpl. apply not_elem_of_dom, is_fresh. Qed.

Lemma Awaitable_new_evolves (h : heap) (t : string) :
  evolves h (fst (Awaitable_new h t)).
Proof.
  intros q a Ha. exists a. simpl. rewrite lookup_insert_ne.
  - split; [done|]. split; [apply state_mono_refl|done].
  - intros <-. pose proof (Awaitable_new_fresh h t) as Hf. simpl in Hf.
    congruence.
Qed.

(** ** The first loop of [awaitAny] *)


Lemma awaitAny_scan_spec (h : heap) (rest : Collection) :
  ∀ it0 b,
    match awaitAny_scan h rest it0 b with
    | ScanDone it =>
      ∃ i p a, it = it0 + i ∧ rest !! i = Some (Some p) ∧
               h !! p = Some a ∧ isDone a = true ∧
               ∀ j e, j < i → rest !! j = Some e → pending_at h e
    | ScanPending b' =>
      Forall (pending_at h) rest ∧
      (b' = false → b = false ∧ Forall (λ e, e = None) rest)
    | ScanDangling => ∃ q, Some q ∈ rest ∧ h !! q = None
    end.
Proof.
  induction rest as [|element rest IH]; intros it0 b; simpl.
  - split; [constructor | intros ->; split; [done | constructor]].
  - destruct element as [awt|]; simpl.
    + destruct (h !! awt) as [a|] eqn:Hawt.
      * destruct (isDone a) eqn:Hdone.
        -- exists 0, awt, a. rewrite Nat.add_0_r. repeat split; try done. lia.
        -- specialize (IH (S it0) true).
           destruct (awaitAny_scan h rest (S it0) true) as [it|b'|].
           ++ destruct IH as (i & p & a' & -> & Hi & Hp & Hd & Hbefore).
              exists (S i), p, a'. repeat split; try done; [lia|].
              intros [|j] e Hj He; simpl in He.
              ** injection He as <-. intros q [= <-]. eauto.
              ** apply (Hbefore j); [lia | done].
           ++ destruct IH as [Hall Hb]. split.
              ** constructor; [|done]. intros q [= <-]. eauto.
              ** intros ->. by destruct Hb.
           ++ destruct IH as (q & Hq & Hnone). exists q. split; [|done].
              by apply list_elem_of_further.
      * exists awt. split; [apply list_elem_of_here | done].
    + specialize (IH (S it0) b).
      destruct (awaitAny_scan h rest (S it0) b) as [it|b'|].
      * destruct IH as (i & p & a' & -> & Hi & Hp & Hd & Hbefore).
        exists (S i), p, a'. repeat split; try done; [lia|].
        intros [|j] e Hj He; simpl in He.
        -- injection He as <-. by intros q.
        -- apply (Hbefore j); [lia | done].
      * destruct IH as [Hall Hb]. split.
        -- constructor; [by intros q | done].
        -- intros Hb'. destruct (Hb Hb') as [-> Hnone]. split; [done|].
           by constructor.
      * destruct IH as (q & Hq & Hnone). exists q. split; [|done].
        by apply list_elem_of_further.
Qed.

Lemma pending_not_done (h : heap) (e : option ptr) :
  pending_at h e → done_at h e = false.
Proof.
  intros Hp. unfold done_at, selectAwaitable. destruct e as [q|]; [|done].
  destruct (Hp q eq_refl) as (a & -> & Hd). done.
Qed.

(** With every element live and one of them done, the first loop returns
    the first done position and [awaitAny] returns it on the spot. *)
Lemma awaitAny_first_done (cur : Coro) (h : heap) (awaitables : Collection) :
  cur ≠ masterCoro →
  all_live h awaitables →
  (∃ e, e ∈ awaitables ∧ done_at h e = true) →
  ∃ it p a,
    awaitAny cur h awaitables = (h, AnyReturn it) ∧
    awaitables !! it = Some (Some p) ∧ h !! p = Some a ∧ isDone a = true ∧
    ∀ j e, j < it → awaitables !! j = Some e → done_at h e = false.
Proof.
  intros Hcur Hlive (e & He & Hdone). unfold awaitAny, Collection_begin.
  destruct (decide (cur = masterCoro)) as [|_]; [done|].
  pose proof (awaitAny_scan_spec h awaitables 0 false) as Hscan.
  destruct (awaitAny_scan h awaitables 0 false) as [it|b'|].
  - destruct Hscan as (i & p & a & -> & Hi & Hp & Hd & Hbefore).
    exists i, p, a. repeat split; try done.
    intros j e' Hj He'. apply pending_not_done. by apply (Hbefore j).
  - destruct Hscan as [Hall _]. rewrite Forall_forall in Hall.
    apply Hall, pending_not_done in He. congruence.
  - destruct Hscan as (q & Hq & Hnone).
    unfold all_live in Hlive. rewrite Forall_forall in Hlive.
    destruct (Hlive _ Hq q eq_refl) as [a Ha]. congruence.
Qed.

(** ** [awaitAny] when an element is done at entry *)

(** C5. When some selected element is already done at entry, [awaitAny]
    returns the position of the first done element in iterator order, at
    once: the outcome is a return, not a yield, and the heap is untouched
    (no coroutine was registered). *)
Theorem C5_awaitAny_returns_first_done
    (cur : Coro) (h : heap) (awaitables : Collection) :
  cur ≠ masterCoro →
  all_live h awaitables →
  (∃ e, e ∈ awaitables ∧ done_at h e = true) →
  ∃ it p a,
    awaitAny cur h awaitables = (h, AnyReturn it) ∧
    awaitables !! it = Some (Some p) ∧ h !! p = Some a ∧ isDone a = true ∧
    ∀ j e, j < it → awaitables !! j = Some e → done_at h e = false.
Proof. apply awaitAny_first_done. Qed.

(** C5, the tie-break scenario: with x and y both completed,
    [awaitAny([x, y])] returns the iterator to x. *)
Lemma C5_witness_tie_break :
  awaitAny 5 h_xy [Some 1; Some 2] = (h_xy, AnyReturn 0).
Proof.
  destruct (C5_awaitAny_returns_first_done 5 h_xy [Some 1; Some 2])
    as (it & p & a & Heq & _ & _ & _ & Hfirst).
  - done.
  - solve_all_live.
  - exists (Some 1). split; [apply list_elem_of_here | reflexivity].
  - rewrite Heq. destruct it as [|it]; [reflexivity|].
    discriminate (Hfirst 0 (Some 1) ltac:(lia) eq_refl).
Defined.

(** C4. When the collection holds a Failed Awaitable (and every selected
    element is live), [awaitAny] returns the position of a done element: its
    outcome is a return and the heap is untouched.  The stored exception
    comes out only when the caller then awaits the designated element, and
    only if that element is the failed one. *)
Theorem C4_awaitAny_does_not_raise
    (cur : Coro) (h : heap) (awaitables : Collection) (f : ptr)
    (af : AwaitableImpl) :
  cur ≠ masterCoro →
  all_live h awaitables →
  Some f ∈ awaitables → h !! f = Some af → state af = ST_Failed →
  ∃ it p a,
    awaitAny cur h awaitables = (h, AnyReturn it) ∧
    awaitables !! it = Some (Some p) ∧ h !! p = Some a ∧ isDone a = true ∧
    await cur h p =
      (h, if didFail a then AwRaise (exception a) else AwReturn).
Proof.
  intros Hcur Hlive Hin Hf Hst.
  destruct (awaitAny_first_done cur h awaitables Hcur Hlive)
    as (it & p & a & Heq & Hit & Hp & Hd & _).
  { exists (Some f). split; [done|]. unfold done_at, selectAwaitable.
    rewrite Hf. unfold isDone, didComplete, didFail. rewrite Hst. done. }
  exists it, p, a. repeat split; try done.
  unfold await. destruct (decide (cur = masterCoro)); [done|]. rewrite Hp.
  unfold isDone, didComplete, didFail in *.
  destruct (state a); simpl in *; done.
Qed.

Lemma C4_witness :
  awaitAny 5 h_mixed [Some 1; Some 2; Some 3] = (h_mixed, AnyReturn 1) ∧
  await 5 h_mixed 2 = (h_mixed, AwRaise (Some 7)).
Proof.
  destruct (C4_awaitAny_does_not_raise 5 h_mixed [Some 1; Some 2; Some 3] 2
              (mkImpl "f" ST_Failed (Some 7) None None true false None))
    as (it & p & a & Heq & _ & _ & _ & _).
  - done.
  - solve_all_live.
  - apply list_elem_of_further, list_elem_of_here.
  - reflexivity.
  - reflexivity.
  - split; [|reflexivity]. rewrite Heq. vm_compute in Heq.
    by injection Heq as <-.
Defined.

(** C7. On an empty collection [awaitAny] returns [begin()]: the outcome is
    a return (the coroutine did not yield, nothing is raised) and the heap
    is untouched. *)
Theorem C7_awaitAny_empty (cur : Coro) (h : heap) :
  cur ≠ masterCoro →
  awaitAny cur h [] = (h, AnyReturn (Collection_begin [])).
Proof.
  intros Hcur. unfold awaitAny.
  destruct (decide (cur = masterCoro)); [done|]. reflexivity.
Qed.

Lemma C7_witness : awaitAny 5 h_xy [] = (h_xy, AnyReturn 0).
Proof. apply (C7_awaitAny_empty 5 h_xy). discriminate. Defined.

(** ** Terminal Awaitables *)

Lemma astep_at (h : heap) (o : aop) (p : ptr) (a : AwaitableImpl) :
  h !! p = Some a →
  o = ADestroy p ∨
  ∃ a', astep h o !! p = Some a' ∧ state_mono (state a) (state a') = true ∧
        (isDone a = true → state a' = state a ∧ exception a' = exception a).
Proof.
  intros Ha.
  destruct o as [c|c e|cur q|q c|q f|q|t|q|cur l|cur l it|cur l|l]; simpl.
  - right. exact (Completer_complete_evolves h c p a Ha).
  - right. exact (Completer_fail_evolves h c e p a Ha).
  - right. exact (only_awaiting_evolves _ _ (await_only cur h q) p a Ha).
  - right. exact (only_awaiting_evolves _ _ (setAwaitingCoro_only h q c) p a Ha).
  - right. exact (Awaitable_then_evolves h q f p a Ha).
  - right. destruct (takeCompleter h q) as [[h' c]|] eqn:Ht.
    + exact (takeCompleter_evolves h h' q c Ht p a Ha).
    + exact (evolves_refl h p a Ha).
  - right. exact (Awaitable_new_evolves h t p a Ha).
  - destruct (decide (q = p)) as [->|Hne]; [by left|right].
    exists a. unfold Awaitable_destroy. rewrite lookup_delete_ne by done.
    split; [done|]. split; [apply state_mono_refl|done].
  - right. exact (only_awaiting_evolves _ _ (awaitAll_only cur h l) p a Ha).
  - right.
    exact (only_awaiting_evolves _ _ (awaitAll_resume_only cur h l it) p a Ha).
  - right. exact (only_awaiting_evolves _ _ (awaitAny_only cur h l) p a Ha).
  - right. exact (only_awaiting_evolves _ _ (awaitAny_resume_only h l) p a Ha).
Qed.

Lemma arun_at_done (ops : list aop) :
  ∀ (h : heap) (p : ptr) (a : AwaitableImpl),
    h !! p = Some a → isDone a = true →
    ADestroy p ∈ ops ∨
    ∃ a', arun h ops !! p = Some a' ∧
          state a' = state a ∧ exception a' = exception a.
Proof.
  induction ops as [|o ops IH]; intros h p a Ha Hd; simpl.
  - right. by exists a.
  - destruct (astep_at h o p a Ha) as [->|(a1 & Ha1 & _ & Hsame)].
    + left. apply list_elem_of_here.
    + destruct (Hsame Hd) as [Hs He].
      assert (isDone a1 = true) as Hd1
        by (unfold isDone, didComplete, didFail in *; by rewrite Hs).
      destruct (IH (astep h o) p a1 Ha1 Hd1) as [Hin|(a' & Ha' & Hs' & He')].
      * left. by apply list_elem_of_further.
      * right. exists a'. unfold arun in Ha'. split; [done|]. split; congruence.
Qed.

(** C1. The state of an Awaitable only moves forward along Initial, Running,
    terminal.  Once an Awaitable is done, whatever the program does next
    (completer calls, awaits, the combinators, new slots and awaiting
    coroutines, other Awaitables coming and going) leaves its state and its
    exception as they are for as long as it is not destroyed; and
    [Completer::complete()] on it changes nothing in the heap and resumes
    nobody. *)
Theorem C1_terminal_state_is_final (h : heap) (p : ptr) (a : AwaitableImpl) :
  h !! p = Some a → isDone a = true →
  (∀ ops, ADestroy p ∈ ops ∨
          ∃ a', arun h ops !! p = Some a' ∧
                state a' = state a ∧ exception a' = exception a) ∧
  (∀ c, mRef c = Some p → Completer_complete h c = (h, [])) ∧
  (∀ h0 o q b b', h0 !! q = Some b → astep h0 o !! q = Some b' →
                  state_mono (state b) (state b') = true).
Proof.
  intros Ha Hd. split; [|split].
  - intros ops. by apply arun_at_done.
  - intros [r] Hr. simpl in Hr. subst r.
    unfold Completer_complete, isExpired, Awaitable_complete. simpl.
    rewrite Ha. rewrite Hd. by destruct (completerRef a).
  - intros h0 o q b b' Hb Hb'.
    destruct (astep_at h0 o q b Hb) as [->|(b1 & Hb1 & Hm & _)].
    + simpl in Hb'. unfold Awaitable_destroy in Hb'.
      by rewrite lookup_delete_eq in Hb'.
    + congruence.
Qed.

Lemma C1_witness :
  ∃ a', arun (<[3 := a_done]> ∅)
             [ACompleterComplete (mkCompleter (Some 3));
              ACompleterFail (mkCompleter (Some 3)) (Some 9);
              AAwait 5 3; AAwaitAny 5 [Some 3]; ANew "n"] !! 3 = Some a' ∧
        state a' = ST_Failed ∧ exception a' = Some 7.
Proof.
  destruct (C1_terminal_state_is_final (<[3 := a_done]> ∅) 3 a_done)
    as (Hops & _ & _); [reflexivity | reflexivity |].
  destruct (Hops [ACompleterComplete (mkCompleter (Some 3));
                  ACompleterFail (mkCompleter (Some 3)) (Some 9);
                  AAwait 5 3; AAwaitAny 5 [Some 3]; ANew "n"])
    as [Hin|Hex]; [|exact Hex].
  exfalso. repeat (apply elem_of_cons in Hin as [Hin|Hin]; [discriminate|]).
  by apply elem_of_nil in Hin.
Defined.

(** C2. On a Completed Awaitable every [await()] returns at once, without
    yielding and without touching the heap, however often it is called; on
    a Failed one every call raises, and each time it is the stored
    exception. *)
Theorem C2_await_terminal_idempotent
    (cur : Coro) (h : heap) (p : ptr) (a : AwaitableImpl) (n : nat) :
  cur ≠ masterCoro → h !! p = Some a →
  (state a = ST_Completed → await_n cur h p n = (h, replicate n AwReturn)) ∧
  (state a = ST_Failed →
   await_n cur h p n = (h, replicate n (AwRaise (exception a)))).
Proof.
  intros Hcur Ha. split; intros Hs; induction n as [|n IH]; simpl; try done;
    unfold await; destruct (decide (cur = masterCoro)); try done;
    rewrite Ha, Hs; by rewrite IH.
Qed.

Lemma C2_witness :
  await_n 5 (<[3 := a_done]> ∅) 3 4 =
    (<[3 := a_done]> ∅, replicate 4 (AwRaise (Some 7))).
Proof.
  apply (C2_await_terminal_idempotent 5 (<[3 := a_done]> ∅) 3 a_done 4);
    [discriminate | reflexivity | reflexivity].
Defined.

(** ** Callback wrappers and guards *)

(** C8. The wrapper made by [c.wrap(fn)] leaves everything alone and does
    not call [fn] when [c] is expired.  Otherwise it calls [fn] on the
    forwarded arguments and then calls [c.fail(e)] if [fn] returned a
    non-empty [e], and [c.complete()] if it returned the empty handle. *)
Theorem C8_wrapper_call {Args : Type} (c : Completer) (fn : Callback Args)
    (args : Args) (h : heap) :
  (isExpired h c = true →
   CallbackWrapper_call (wrap c fn) args h = (h, [], false)) ∧
  (isExpired h c = false →
   ∀ e, snd (fn args h) = Some e →
     CallbackWrapper_call (wrap c fn) args h =
       (Completer_fail (fst (fn args h)) c (Some e), true)) ∧
  (isExpired h c = false →
   snd (fn args h) = None →
   CallbackWrapper_call (wrap c fn) args h =
     (Completer_complete (fst (fn args h)) c, true)).
Proof.
  unfold CallbackWrapper_call, wrap, Completer_call; simpl.
  repeat split.
  - by intros ->.
  - intros -> e He. simpl. destruct (fn args h) as [h1 e1]. simpl in *.
    subst e1. simpl. by destruct (Completer_fail h1 c (Some e)).
  - intros -> He. simpl. destruct (fn args h) as [h1 e1]. simpl in *.
    subst e1. simpl. by destruct (Completer_complete h1 c).
Qed.

Lemma C8_witness :
  CallbackWrapper_call (wrap (mkCompleter (Some 3)) (cb_fail 9)) 2 h_ext =
    (<[3 := mkImpl "ext" ST_Failed (Some 9) None (Some 5) true false (Some 2)]> ∅,
     [EvThen 2; EvYieldExceptionTo 5 (Some 9)], true).
Proof.
  destruct (C8_wrapper_call (mkCompleter (Some 3)) (cb_fail 9) 2 h_ext)
    as (_ & Hfail & _).
  rewrite (Hfail eq_refl 9 eq_refl). vm_compute. reflexivity.
Defined.

Lemma grun_cell (ops : list Guard.gop) :
  ∀ w c b, c < Guard.next (Guard.w_cells w) →
    Guard.store (Guard.w_cells w) !! c = Some b →
    Guard.store (Guard.w_cells (Guard.grun w ops)) !! c =
      Some (b || Guard.ever_hit w c ops).
Proof.
  induction ops as [|o ops IH]; intros w c b Hlt Hb; simpl.
  - by rewrite orb_false_r.
  - unfold Guard.grun in IH.
    assert (∀ g, Guard.store (Guard.block (Guard.w_cells w) g) !! c =
                 Some (b || bool_decide (Guard.mIsBlocked g = c))) as Hblock.
    { intros g. simpl. case_bool_decide as Hc.
      - rewrite Hc, lookup_insert_eq. by rewrite orb_true_r.
      - rewrite lookup_insert_ne by done. by rewrite orb_false_r. }
    destruct o as [a|a src|dst src|a|a|a]; simpl.
    + destruct (Guard.w_guards w !! a); [by apply IH|].
      apply IH; simpl; [lia|]. rewrite lookup_insert_ne by lia. done.
    + destruct (Guard.w_guards w !! a), (Guard.w_guards w !! src);
        by apply IH.
    + destruct (Guard.w_guards w !! dst), (Guard.w_guards w !! src);
        by apply IH.
    + by apply IH.
    + destruct (Guard.w_guards w !! a) as [g|]; [|by apply IH].
      rewrite (IH _ c (b || bool_decide (Guard.mIsBlocked g = c)));
        [by rewrite orb_assoc|done|apply Hblock].
    + destruct (Guard.w_guards w !! a) as [g|]; [|by apply IH].
      rewrite (IH _ c (b || bool_decide (Guard.mIsBlocked g = c)));
        [by rewrite orb_assoc|done|apply Hblock].
Qed.

Lemma ever_hit_unshared (ops : list Guard.gop) (a c : nat) :
  forallb (Guard.unshared a) ops = true →
  ∀ w, c < Guard.next (Guard.w_cells w) →
    Guard.w_guards w !! a = Some (Guard.mkGuard c) →
    (∀ b g, Guard.w_guards w !! b = Some g → Guard.mIsBlocked g = c → b = a) →
    Guard.ever_hit w c ops = existsb (Guard.names a) ops.
Proof.
  induction ops as [|o ops IH]; intros Hun w Hlt Ha Hsole; [done|].
  simpl in Hun. apply andb_true_iff in Hun as [Ho Hun]. simpl.
  destruct o as [b|b src|dst src|b|b|b]; simpl in *.
  - destruct (Guard.w_guards w !! b) as [g|] eqn:Hb; [by apply IH|].
    apply IH; simpl; [done|lia| |].
    + rewrite lookup_insert_ne; [done|]. congruence.
    + intros x g Hx Hg. destruct (decide (x = b)) as [->|Hne].
      * rewrite lookup_insert_eq in Hx. injection Hx as <-. simpl in Hg. lia.
      * rewrite lookup_insert_ne in Hx by done. by eapply Hsole.
  - apply negb_true_iff, bool_decide_eq_false in Ho.
    destruct (Guard.w_guards w !! b) as [gb|] eqn:Hb; [by apply IH|].
    destruct (Guard.w_guards w !! src) as [g|] eqn:Hs; [|by apply IH].
    apply IH; simpl; [done|done| |].
    + rewrite lookup_insert_ne; [done|]. congruence.
    + intros x g' Hx Hg. destruct (decide (x = b)) as [->|Hne].
      * rewrite lookup_insert_eq in Hx. injection Hx as <-. simpl in Hg.
        destruct Ho. by eapply Hsole.
      * rewrite lookup_insert_ne in Hx by done. by eapply Hsole.
  - apply andb_true_iff in Ho as [Hd Hs].
    apply negb_true_iff, bool_decide_eq_false in Hd.
    apply negb_true_iff, bool_decide_eq_false in Hs.
    destruct (Guard.w_guards w !! dst) as [gd|] eqn:Hgd; [|by apply IH].
    destruct (Guard.w_guards w !! src) as [g|] eqn:Hgs; [|by apply IH].
    apply IH; simpl; [done|done| |].
    + by rewrite lookup_insert_ne.
    + intros x g' Hx Hg. destruct (decide (x = dst)) as [->|Hne].
      * rewrite lookup_insert_eq in Hx. injection Hx as <-. simpl in Hg.
        destruct Hs. by eapply Hsole.
      * rewrite lookup_insert_ne in Hx by done. by eapply Hsole.
  - by apply IH.
  - destruct (decide (b = a)) as [->|Hne].
    + rewrite Ha. simpl. by rewrite !bool_decide_eq_true_2.
    + rewrite (bool_decide_eq_false_2 (b = a)) by done.
      destruct (Guard.w_guards w !! b) as [g|] eqn:Hb; [|by apply IH].
      rewrite bool_decide_eq_false_2 by (intros Hg; by apply Hne, (Hsole b g)).
      by apply IH.
  - destruct (decide (b = a)) as [->|Hne].
    + rewrite Ha. simpl. by rewrite !bool_decide_eq_true_2.
    + rewrite (bool_decide_eq_false_2 (b = a)) by done.
      destruct (Guard.w_guards w !! b) as [g|] eqn:Hb; [|by apply IH].
      rewrite bool_decide_eq_false_2 by (intros Hg; by apply Hne, (Hsole b g)).
      apply IH; simpl; [done|done| |].
      * by rewrite lookup_delete_ne.
      * intros x g' Hx Hg. destruct (decide (x = b)) as [->|Hxb].
        -- by rewrite lookup_delete_eq in Hx.
        -- rewrite lookup_delete_ne in Hx by done. by eapply Hsole.
Qed.

(** C9, as the code has it.  A token of the guard constructed at [a]
    reports not blocked until [block()] is called on, or the destructor
    runs for, a guard object that holds the token's cell, which is the
    guard itself or a copy of it; from then on it reports blocked.  Every
    such object and every token read and write that one cell.  When the
    guard is neither copied nor assigned, the objects holding the cell are
    the guard alone, and the token follows [block()] and the destructor of
    the guard itself. *)
Theorem C9_token_follows_cell (w : Guard.world) (a : nat)
    (ops : list Guard.gop) :
  Guard.w_guards w !! a = None →
  let w1 := Guard.gstep w (Guard.GopNew a) in
  let g := Guard.mkGuard (Guard.next (Guard.w_cells w)) in
  let t := Guard.getToken g in
  Guard.w_guards w1 !! a = Some g ∧
  Guard.isBlocked (Guard.w_cells (Guard.grun w1 ops)) t =
    Some (Guard.ever_hit w1 (Guard.tIsBlocked t) ops) ∧
  (∀ b g', Guard.w_guards (Guard.grun w1 ops) !! b = Some g' →
           Guard.getToken g' = t →
           Guard.isBlocked
             (Guard.w_cells (Guard.gstep (Guard.grun w1 ops) (Guard.GopDestroy b)))
             t = Some true) ∧
  ((∀ b g', Guard.w_guards w !! b = Some g' →
            Guard.mIsBlocked g' < Guard.next (Guard.w_cells w)) →
   forallb (Guard.unshared a) ops = true →
   Guard.isBlocked (Guard.w_cells (Guard.grun w1 ops)) t =
     Some (existsb (Guard.names a) ops)).
Proof.
  intros Ha w1 g t.
  assert (w1 = Guard.mkWorld
                 (Guard.mkCells (<[Guard.next (Guard.w_cells w) := false]>
                                   (Guard.store (Guard.w_cells w)))
                                (S (Guard.next (Guard.w_cells w))))
                 (<[a := g]> (Guard.w_guards w))) as Hw1.
  { unfold w1. simpl. by rewrite Ha. }
  assert (Guard.isBlocked (Guard.w_cells (Guard.grun w1 ops)) t =
          Some (Guard.ever_hit w1 (Guard.tIsBlocked t) ops)) as Hcell.
  { unfold Guard.isBlocked.
    rewrite (grun_cell ops w1 (Guard.tIsBlocked t) false); [done| |].
    - rewrite Hw1. simpl. lia.
    - rewrite Hw1. simpl. by rewrite lookup_insert_eq. }
  split; [|split; [|split]].
  - rewrite Hw1. simpl. by rewrite lookup_insert_eq.
  - done.
  - intros b g' Hb Ht. simpl. rewrite Hb. unfold Guard.isBlocked. simpl.
    injection Ht as ->. by rewrite lookup_insert_eq.
  - intros Hwf Hun. rewrite Hcell. f_equal.
    apply ever_hit_unshared; try done.
    + rewrite Hw1. simpl. lia.
    + rewrite Hw1. simpl. by rewrite lookup_insert_eq.
    + rewrite Hw1. simpl. intros b g' Hb Hg.
      destruct (decide (b = a)) as [|Hne]; [done|].
      rewrite lookup_insert_ne in Hb by done.
      specialize (Hwf b g' Hb). lia.
Qed.

Lemma C9_witness :
  Guard.isBlocked
    (Guard.w_cells (Guard.grun (Guard.gstep w_empty (Guard.GopNew 0))
                               [Guard.GopNew 1; Guard.GopBlock 1;
                                Guard.GopGetToken 0]))
    (Guard.mkToken 0) = Some false ∧
  Guard.isBlocked
    (Guard.w_cells (Guard.grun (Guard.gstep w_empty (Guard.GopNew 0))
                               [Guard.GopCopy 1 0; Guard.GopDestroy 1]))
    (Guard.mkToken 0) = Some true.
Proof.
  split.
  - destruct (C9_token_follows_cell w_empty 0
                [Guard.GopNew 1; Guard.GopBlock 1; Guard.GopGetToken 0])
      as (_ & _ & _ & Hsole); [reflexivity|].
    apply Hsole; [|reflexivity]. intros b g' Hb. unfold w_empty in Hb.
    simpl in Hb. by rewrite lookup_empty in Hb.
  - destruct (C9_token_follows_cell w_empty 0
                [Guard.GopCopy 1 0; Guard.GopDestroy 1])
      as (_ & Hcell & _); [reflexivity|].
    exact Hcell.
Defined.

(** C9 as the claim words it fails: the guard at address 0 is copied to
    address 1 and the copy is destroyed; the token of the guard now reports
    blocked although [block()] was never called on the guard and the guard
    is alive. *)
Lemma C9_counterexample :
  let ops := [Guard.GopCopy 1 0; Guard.GopDestroy 1] in
  let w1 := Guard.gstep w_empty (Guard.GopNew 0) in
  existsb (Guard.names 0) ops = false ∧
  Guard.w_guards (Guard.grun w1 ops) !! 0 = Some (Guard.mkGuard 0) ∧
  Guard.isBlocked (Guard.w_cells (Guard.grun w1 ops))
                  (Guard.getToken (Guard.mkGuard 0)) = Some true ∧
  Guard.isBlocked (Guard.w_cells (Guard.grun w1 ops))
                  (Guard.getToken (Guard.mkGuard 0)) ≠
    Some (existsb (Guard.names 0) ops).
Proof. repeat split; try reflexivity. discriminate. Qed.

(** ** [awaitAll] *)

Lemma completed_at_evolves (h h' : heap) (e : option ptr) :
  evolves h h' → completed_at h e → completed_at h' e.
Proof.
  intros Hev Hc q ->. destruct (Hc q eq_refl) as (a & Ha & Hs).
  destruct (Hev q a Ha) as (a' & Ha' & _ & Hsame). exists a'. split; [done|].
  destruct Hsame as [Hs' _]; [|congruence].
  apply isDone_state. by left.
Qed.

Lemma await_cases (cur : Coro) (h : heap) (p : ptr) :
  match await cur h p with
  | (h', AwReturn) => h' = h ∧ ∃ a, h !! p = Some a ∧ state a = ST_Completed
  | (h', AwRaise e) =>
    h' = h ∧ ∃ a, h !! p = Some a ∧ state a = ST_Failed ∧ exception a = e
  | (h', AwYield _) =>
    ∃ a, h !! p = Some a ∧ isDone a = false ∧
         h' = <[p := set_awaitingCoro (Some cur) a]> h
  | (h', AwViolation) => h' = h
  end.
Proof.
  unfold await. destruct (decide (cur = masterCoro)); [done|].
  destruct (h !! p) as [a|] eqn:Ha; [|done].
  destruct (state a) eqn:Hs; try (split; [done|]; by exists a);
    case_bool_decide; try done;
    destruct (boundCoro a) as [[b [|]]|]; exists a;
    unfold isDone, didComplete, didFail; rewrite Hs; done.
Qed.

Lemma awaitAll_loop_spec (cur : Coro) (rest : Collection) :
  ∀ h it,
    match awaitAll_loop cur h rest it with
    | (h', called, AllReturn) =>
      h' = h ∧ called = selected rest ∧ Forall (completed_at h) rest
    | (h', called, AllRaise it' e) =>
      h' = h ∧
      ∃ i p a, it' = it + i ∧ rest !! i = Some (Some p) ∧
               h !! p = Some a ∧ state a = ST_Failed ∧ exception a = e ∧
               called = selected (take (S i) rest) ∧
               Forall (completed_at h) (take i rest)
    | (h', called, AllYield it' _) =>
      ∃ i p a, it' = it + i ∧ rest !! i = Some (Some p) ∧
               h !! p = Some a ∧ isDone a = false ∧
               h' = <[p := set_awaitingCoro (Some cur) a]> h ∧
               called = selected (take (S i) rest) ∧
               Forall (completed_at h) (take i rest)
    | (h', called, AllViolation) =>
      h' = h ∧ ∃ i, i < length rest ∧ called = selected (take (S i) rest)
    end.
Proof.
  induction rest as [|[awt|] rest IH]; intros h it; simpl.
  - repeat split; constructor.
  - pose proof (await_cases cur h awt) as Hcase.
    destruct (await cur h awt) as [h1 [ |e|t| ]].
    + destruct Hcase as (-> & a & Ha & Hs). specialize (IH h (S it)).
      assert (completed_at h (Some awt)) as Hc by (intros q [= <-]; eauto).
      destruct (awaitAll_loop cur h rest (S it)) as [[h2 called] [ |it' e'|it' t'| ]].
      * destruct IH as (-> & -> & Hall). repeat split; try done; by constructor.
      * destruct IH as (-> & i & p & b & -> & Hi & Hb & Hsb & He & -> & Hall).
        split; [done|]. exists (S i), p, b.
        repeat split; try done; try lia; by constructor.
      * destruct IH as (i & p & b & -> & Hi & Hb & Hd & -> & -> & Hall).
        exists (S i), p, b. repeat split; try done; try lia; by constructor.
      * destruct IH as (-> & i & Hi & ->). split; [done|]. exists (S i).
        split; [simpl; lia|done].
    + destruct Hcase as (-> & a & Ha & Hs & He). split; [done|].
      exists 0, awt, a. rewrite Nat.add_0_r.
      repeat split; try done; rewrite ?take_0; simpl; try done;
        try constructor.
    + destruct Hcase as (a & Ha & Hd & ->). exists 0, awt, a.
      rewrite Nat.add_0_r.
      repeat split; try done; rewrite ?take_0; simpl; try done;
        try constructor.
    + subst h1. split; [done|]. exists 0. split; [simpl; lia|].
      simpl. by rewrite ?take_0.
  - specialize (IH h (S it)).
    assert (completed_at h None) as Hc by (by intros q).
    destruct (awaitAll_loop cur h rest (S it)) as [[h2 called] [ |it' e'|it' t'| ]].
    + destruct IH as (-> & -> & Hall). repeat split; try done; by constructor.
    + destruct IH as (-> & i & p & b & -> & Hi & Hb & Hsb & He & -> & Hall).
      split; [done|]. exists (S i), p, b.
      repeat split; try done; try lia; by constructor.
    + destruct IH as (i & p & b & -> & Hi & Hb & Hd & -> & -> & Hall).
      exists (S i), p, b. repeat split; try done; try lia; by constructor.
    + destruct IH as (-> & i & Hi & ->). split; [done|]. exists (S i).
      split; [simpl; lia|done].
Qed.

Lemma selected_take_drop (l : Collection) (n m : nat) :
  selected (take n l) ++ selected (take m (drop n l)) = selected (take (n + m) l).
Proof. unfold selected. by rewrite <- omap_app, take_take_drop. Qed.

Lemma completed_prefix (h : heap) (l : Collection) (it i : nat) (p : ptr) :
  Forall (completed_at h) (take it l) →
  l !! it = Some (Some p) → completed_at h (Some p) →
  Forall (completed_at h) (take i (drop (S it) l)) →
  Forall (completed_at h) (take (S it + i) l).
Proof.
  intros Hpre Hit Hp Hpost. rewrite <- take_take_drop.
  rewrite (take_S_r _ _ _ Hit). rewrite !Forall_app. repeat split; try done.
  by repeat constructor.
Qed.

Lemma Forall_completed_evolves (h h' : heap) (l : Collection) :
  evolves h h' → Forall (completed_at h) l → Forall (completed_at h') l.
Proof.
  intros Hev Hall. eapply Forall_impl; [exact Hall|].
  intros e. by apply completed_at_evolves.
Qed.

Lemma awaitAll_inv_evolves (c0 : list ptr) (awaitables : Collection) (s : sys)
    (h' : heap) (cs : list Completer) (log : list event) :
  evolves (s_heap s) h' → awaitAll_inv c0 awaitables s →
  awaitAll_inv c0 awaitables (mkSys h' cs log (s_called s) (s_co s)).
Proof.
  intros Hev. unfold awaitAll_inv. simpl.
  destruct (s_co s) as [[l it|l|]|[ |it|e| ]]; try done.
  - intros (-> & Hp & Hc & Hall). repeat split; try done.
    by eapply Forall_completed_evolves.
  - intros (Hc & Hall). split; [done|]. by eapply Forall_completed_evolves.
  - intros (it & p & a & Hit & Ha & Hs & He & Hc & Hall).
    destruct (Hev p a Ha) as (a' & Ha' & _ & Hsame).
    destruct Hsame as [Hs' He']; [apply isDone_state; by right|].
    exists it, p, a'. repeat split; try done; try congruence.
    by eapply Forall_completed_evolves.
Qed.

Lemma finish_evolves (bound : option ptr) (h : heap) (co : costate) :
  evolves h (fst (finish bound h co)).
Proof.
  unfold finish. destruct bound as [pc|]; [|apply evolves_refl].
  destruct co as [k|[ |it|e| ]]; try apply evolves_refl.
  - apply Awaitable_complete_evolves.
  - apply Awaitable_complete_evolves.
  - apply Awaitable_fail_evolves.
Qed.

(** The invariant of [awaitAll] when the coroutine is resumed in the
    [await()] of the element at [it]. *)
Lemma awaitAll_resume_inv (cur : Coro) (c0 called0 : list ptr)
    (awaitables : Collection) (it : nat) (h : heap)
    (cs : list Completer) (log : list event) :
  (∃ p, awaitables !! it = Some (Some p)) →
  called0 = c0 ++ selected (take (S it) awaitables) →
  Forall (completed_at h) (take it awaitables) →
  let '(h1, called, co) := resume cur h (KAwaitAll awaitables it) in
  awaitAll_inv c0 awaitables (mkSys h1 cs log (called0 ++ called) co).
Proof.
  intros [p Hit] -> Hall. unfold resume, awaitAll_resume. rewrite Hit.
  unfold await_resume, awaitAll_inv.
  destruct (h !! p) as [a|] eqn:Ha; simpl.
  2: { exists (S it). by rewrite app_nil_r. }
  destruct (state a) eqn:Hs; simpl.
  1,2: exists (S it); by rewrite app_nil_r.
  - assert (completed_at h (Some p)) as Hp by (intros q [= <-]; eauto).
    pose proof (awaitAll_loop_spec cur (drop (S it) awaitables) h (S it)) as Hl.
    destruct (awaitAll_loop cur h (drop (S it) awaitables) (S it))
      as [[h1 called] [ |it' e|it' t| ]]; simpl.
    + destruct Hl as (-> & -> & Hrest). split.
      * rewrite <- app_assoc. f_equal. unfold selected.
        by rewrite <- omap_app, take_drop.
      * rewrite <- (take_drop_middle _ _ _ Hit). rewrite Forall_app.
        split; [done|]. by constructor.
    + destruct Hl as (-> & i & q & b & -> & Hi & Hb & Hsb & He & -> & Hpre).
      rewrite lookup_drop in Hi. exists (S it + i), q, b.
      repeat split; try done.
      * rewrite <- app_assoc. f_equal.
        rewrite (selected_take_drop awaitables (S it) (S i)).
        do 2 f_equal. lia.
      * by eapply completed_prefix.
    + destruct Hl as (i & q & b & -> & Hi & Hb & Hd & -> & -> & Hpre).
      rewrite lookup_drop in Hi. repeat split; try done.
      * by exists q.
      * rewrite <- app_assoc. f_equal.
        rewrite (selected_take_drop awaitables (S it) (S i)).
        do 2 f_equal. lia.
      * eapply Forall_completed_evolves.
        -- apply only_awaiting_evolves. by apply insert_only_awaiting.
        -- by eapply completed_prefix.
    + destruct Hl as (-> & i & Hi & ->). exists (S it + S i).
      rewrite <- app_assoc. f_equal.
      by rewrite (selected_take_drop awaitables (S it) (S i)).
  - exists it, p, a. rewrite app_nil_r. done.
Qed.

Lemma deliver_awaitAll_inv (cur : Coro) (bound : option ptr) (c0 : list ptr)
    (awaitables : Collection) (s : sys) (h : heap) (evs : list event) :
  evolves (s_heap s) h → awaitAll_inv c0 awaitables s →
  awaitAll_inv c0 awaitables (deliver cur bound s h evs).
Proof.
  intros Hev Hinv. unfold deliver.
  pose proof (awaitAll_inv_evolves c0 awaitables s h (s_completers s)
                (s_log s ++ evs) Hev Hinv) as Hquiet.
  destruct (s_co s) as [k|r] eqn:Hco; [|done].
  destruct (existsb (resumes cur) evs); [|done].
  unfold awaitAll_inv in Hinv. rewrite Hco in Hinv.
  destruct k as [l it|l|]; try done.
  destruct Hinv as (-> & Hp & Hc & Hall).
  pose proof (awaitAll_resume_inv cur c0 (s_called s) awaitables it h
                (s_completers s) (s_log s) Hp Hc
                (Forall_completed_evolves _ _ _ Hev Hall)) as Hres.
  destruct (resume cur h (KAwaitAll awaitables it)) as [[h1 called] co].
  pose proof (finish_evolves bound h1 co) as Hfin.
  destruct (finish bound h1 co) as [h2 evs'].
  simpl in Hfin.
  exact (awaitAll_inv_evolves c0 awaitables
           (mkSys h1 (s_completers s) (s_log s) (s_called s ++ called) co)
           h2 (s_completers s) (s_log s ++ evs ++ evs') Hfin Hres).
Qed.

Lemma mstep_awaitAll_inv (cur : Coro) (bound : option ptr) (c0 : list ptr)
    (awaitables : Collection) (s s' : sys) (o : mop) :
  mstep cur bound s o = Some s' →
  awaitAll_inv c0 awaitables s → awaitAll_inv c0 awaitables s'.
Proof.
  intros Hstep Hinv. destruct o as [t|p|k|k e|p f]; simpl in Hstep.
  - injection Hstep as <-. apply awaitAll_inv_evolves; [|done].
    apply (Awaitable_new_evolves (s_heap s) t).
  - destruct (takeCompleter (s_heap s) p) as [[h c]|] eqn:Ht; [|done].
    simpl in Hstep. injection Hstep as <-.
    apply awaitAll_inv_evolves; [|done]. by eapply takeCompleter_evolves.
  - destruct (s_completers s !! k) as [c|]; [|done]. simpl in Hstep.
    pose proof (Completer_complete_evolves (s_heap s) c) as Hev.
    destruct (Completer_complete (s_heap s) c) as [h evs].
    injection Hstep as <-. by apply deliver_awaitAll_inv.
  - destruct (s_completers s !! k) as [c|]; [|done]. simpl in Hstep.
    pose proof (Completer_fail_evolves (s_heap s) c e) as Hev.
    destruct (Completer_fail (s_heap s) c e) as [h evs].
    injection Hstep as <-. by apply deliver_awaitAll_inv.
  - injection Hstep as <-. apply awaitAll_inv_evolves; [|done].
    apply Awaitable_then_evolves.
Qed.

Lemma run_awaitAll_inv (cur : Coro) (bound : option ptr) (c0 : list ptr)
    (awaitables : Collection) (script : list mop) :
  ∀ s, awaitAll_inv c0 awaitables s →
       awaitAll_inv c0 awaitables (run cur bound s script).
Proof.
  induction script as [|o script IH]; intros s Hinv; simpl; [done|].
  destruct (mstep cur bound s o) as [s'|] eqn:Hstep; [|done].
  apply IH. by eapply mstep_awaitAll_inv.
Qed.

Lemma enter_awaitAll_inv (cur : Coro) (s : sys) (awaitables : Collection) :
  awaitAll_inv (s_called s) awaitables (enter_awaitAll cur s awaitables).
Proof.
  unfold enter_awaitAll, awaitAll, Collection_begin.
  destruct (decide (cur = masterCoro)).
  { unfold awaitAll_inv. simpl. exists 0. by rewrite take_0. }
  pose proof (awaitAll_loop_spec cur awaitables (s_heap s) 0) as Hl.
  destruct (awaitAll_loop cur (s_heap s) awaitables 0)
    as [[h called] [ |it e|it t| ]]; unfold awaitAll_inv; simpl.
  - by destruct Hl as (-> & -> & Hall).
  - destruct Hl as (-> & i & p & a & -> & Hi & Ha & Hs & He & -> & Hall).
    by exists i, p, a.
  - destruct Hl as (i & p & a & -> & Hi & Ha & Hd & -> & -> & Hall).
    repeat split; try done; [by exists p|].
    eapply Forall_completed_evolves; [|done].
    apply only_awaiting_evolves. by apply insert_only_awaiting.
  - destruct Hl as (-> & i & Hi & ->). by exists (S i).
Qed.

Lemma awaitAll_loop_raises (cur : Coro) (h : heap) (rest : Collection) :
  cur ≠ masterCoro →
  ∀ it0 i p a,
    rest !! i = Some (Some p) → h !! p = Some a → state a = ST_Failed →
    Forall (completed_at h) (take i rest) →
    awaitAll_loop cur h rest it0 =
      (h, selected (take (S i) rest), AllRaise (it0 + i) (exception a)).
Proof.
  intros Hcur. induction rest as [|element rest IH];
    intros it0 i p a Hi Ha Hs Hall; [done|].
  destruct i as [|i]; simpl in Hi.
  - injection Hi as ->. simpl. unfold await.
    destruct (decide (cur = masterCoro)); [done|]. rewrite Ha, Hs.
    by rewrite ?take_0, Nat.add_0_r.
  - simpl in Hall. apply Forall_cons in Hall as [Hel Hall].
    rewrite (Nat.add_succ_r it0 i). simpl.
    destruct element as [awt|]; simpl.
    + destruct (Hel awt eq_refl) as (b & Hb & Hsb). unfold await.
      destruct (decide (cur = masterCoro)); [done|]. rewrite Hb, Hsb.
      by rewrite (IH (S it0) i p a).
    + by rewrite (IH (S it0) i p a).
Qed.

(** ** The loops of [awaitAny] around its yield *)

Lemma fmap_set_awaitingCoro_twice (c : option Coro) (x : option AwaitableImpl) :
  set_awaitingCoro c <$> (set_awaitingCoro c <$> x) = set_awaitingCoro c <$> x.
Proof. by destruct x. Qed.

Lemma awaitAny_register_lookup (cur : Coro) (rest : Collection) :
  ∀ h q,
    awaitAny_register cur h rest !! q =
      if decide (Some q ∈ rest) then set_awaitingCoro (Some cur) <$> h !! q
      else h !! q.
Proof.
  induction rest as [|[awt|] rest IH]; intros h q; simpl.
  - destruct (decide (Some q ∈ [])) as [Hin|]; [|done].
    by apply elem_of_nil in Hin.
  - rewrite IH, setAwaitingCoro_lookup.
    destruct (decide (q = awt)) as [->|Hne].
    + rewrite fmap_set_awaitingCoro_twice.
      rewrite (decide_True (P := Some awt ∈ Some awt :: rest))
        by apply list_elem_of_here.
      by destruct (decide (Some awt ∈ rest)).
    + destruct (decide (Some q ∈ rest)) as [Hin|Hnin].
      * by rewrite decide_True by by apply list_elem_of_further.
      * rewrite decide_False; [done|].
        intros [?|?]%elem_of_cons; [congruence|done].
  - rewrite IH. destruct (decide (Some q ∈ rest)) as [Hin|Hnin].
    + by rewrite decide_True by by apply list_elem_of_further.
    + rewrite decide_False; [done|].
      intros [?|?]%elem_of_cons; [congruence|done].
Qed.

Lemma awaitAny_collect_lookup (rest : Collection) :
  ∀ h it ca cp q,
    (awaitAny_collect h rest it ca cp).1.1 !! q =
      if decide (Some q ∈ rest) then set_awaitingCoro None <$> h !! q
      else h !! q.
Proof.
  induction rest as [|[awt|] rest IH]; intros h it ca cp q; simpl.
  - destruct (decide (Some q ∈ [])) as [Hin|]; [|done].
    by apply elem_of_nil in Hin.
  - assert (∀ ca' cp',
      (awaitAny_collect (setAwaitingCoro h awt None) rest (S it) ca' cp').1.1
        !! q =
      if decide (Some q ∈ Some awt :: rest)
      then set_awaitingCoro None <$> h !! q else h !! q) as Hgen.
    { intros ca' cp'. rewrite IH, setAwaitingCoro_lookup.
      destruct (decide (q = awt)) as [->|Hne].
      - rewrite fmap_set_awaitingCoro_twice.
        rewrite (decide_True (P := Some awt ∈ Some awt :: rest))
          by apply list_elem_of_here.
        by destruct (decide (Some awt ∈ rest)).
      - destruct (decide (Some q ∈ rest)) as [Hin|Hnin].
        + by rewrite decide_True by by apply list_elem_of_further.
        + rewrite decide_False; [done|].
          intros [?|?]%elem_of_cons; [congruence|done]. }
    repeat case_match; apply Hgen.
  - rewrite IH. destruct (decide (Some q ∈ rest)) as [Hin|Hnin].
    + by rewrite decide_True by by apply list_elem_of_further.
    + rewrite decide_False; [done|].
      intros [?|?]%elem_of_cons; [congruence|done].
Qed.

Lemma done_at_setAwaitingCoro (h : heap) (p : ptr) (c : option Coro)
    (e : option ptr) :
  done_at (setAwaitingCoro h p c) e = done_at h e.
Proof.
  unfold done_at, selectAwaitable. destruct e as [q|]; [|done].
  rewrite setAwaitingCoro_lookup. destruct (decide (q = p)); [|done].
  by destruct (h !! q).
Qed.

Lemma awaitAny_collect_some (rest : Collection) :
  ∀ h it c cp,
    (awaitAny_collect h rest it (Some c) cp).1.2 = Some c ∧
    (awaitAny_collect h rest it (Some c) cp).2 = cp.
Proof.
  induction rest as [|[awt|] rest IH]; intros h it c cp; simpl; [done| |apply IH].
  apply IH.
Qed.

Lemma awaitAny_collect_none (rest : Collection) :
  ∀ h it cp,
    match (awaitAny_collect h rest it None cp).1.2 with
    | Some p =>
      ∃ i, (awaitAny_collect h rest it None cp).2 = it + i ∧
           rest !! i = Some (Some p) ∧ done_at h (Some p) = true ∧
           ∀ j e, j < i → rest !! j = Some e → done_at h e = false
    | None => Forall (λ e, done_at h e = false) rest
    end.
Proof.
  induction rest as [|[awt|] rest IH]; intros h it cp; simpl.
  - constructor.
  - rewrite setAwaitingCoro_lookup, decide_True by done.
    destruct (h !! awt) as [a|] eqn:Ha; simpl.
    + change (isDone (set_awaitingCoro None a)) with (isDone a).
      destruct (isDone a) eqn:Hd.
      * destruct (awaitAny_collect_some rest (setAwaitingCoro h awt None)
                    (S it) awt it) as [-> ->].
        exists 0. rewrite Nat.add_0_r. split; [done|]. split; [done|].
        split; [unfold done_at, selectAwaitable; by rewrite Ha|]. lia.
      * specialize (IH (setAwaitingCoro h awt None) (S it) cp).
        assert (done_at h (Some awt) = false) as Hawt
          by (unfold done_at, selectAwaitable; by rewrite Ha).
        destruct (awaitAny_collect _ rest (S it) None cp) as [[h' [p|]] cp'];
          cbn [fst snd] in *.
        -- destruct IH as (i & -> & Hi & Hp & Hbefore).
           rewrite done_at_setAwaitingCoro in Hp.
           exists (S i). split; [lia|]. split; [done|]. split; [done|].
           intros [|j] e Hj He; simpl in He; [by injection He as <-|].
           rewrite <- (done_at_setAwaitingCoro h awt None).
           apply (Hbefore j); [lia|done].
        -- constructor; [done|]. eapply Forall_impl; [exact IH|].
           intros e. cbv beta. by rewrite done_at_setAwaitingCoro.
    + specialize (IH (setAwaitingCoro h awt None) (S it) cp).
      assert (done_at h (Some awt) = false) as Hawt
        by (unfold done_at, selectAwaitable; by rewrite Ha).
      destruct (awaitAny_collect _ rest (S it) None cp) as [[h' [p|]] cp'];
        cbn [fst snd] in *.
      * destruct IH as (i & -> & Hi & Hp & Hbefore).
        rewrite done_at_setAwaitingCoro in Hp.
        exists (S i). split; [lia|]. split; [done|]. split; [done|].
        intros [|j] e Hj He; simpl in He; [by injection He as <-|].
        rewrite <- (done_at_setAwaitingCoro h awt None).
        apply (Hbefore j); [lia|done].
      * constructor; [done|]. eapply Forall_impl; [exact IH|].
        intros e. cbv beta. by rewrite done_at_setAwaitingCoro.
  - specialize (IH h (S it) cp).
    destruct (awaitAny_collect h rest (S it) None cp) as [[h' [p|]] cp'];
      cbn [fst snd] in *.
    + destruct IH as (i & -> & Hi & Hp & Hbefore).
      exists (S i). split; [lia|]. split; [done|]. split; [done|].
      intros [|j] e Hj He; simpl in He; [by injection He as <-|].
      apply (Hbefore j); [lia|done].
    + by constructor.
Qed.

Lemma isDone_same_state (a a' : AwaitableImpl) :
  state a' = state a → isDone a' = isDone a.
Proof. unfold isDone, didComplete, didFail. by intros ->. Qed.

Lemma awaitAny_yield_inv (cur : Coro) (h : heap) (awaitables : Collection)
    (target : Coro) :
  (awaitAny cur h awaitables).2 = AnyYield target →
  cur ≠ masterCoro ∧
  awaitAny cur h awaitables =
    (awaitAny_register cur h awaitables, AnyYield masterCoro) ∧
  Forall (pending_at h) awaitables.
Proof.
  unfold awaitAny, Collection_begin.
  destruct (decide (cur = masterCoro)); [done|].
  pose proof (awaitAny_scan_spec h awaitables 0 false) as Hscan.
  destruct (awaitAny_scan h awaitables 0 false) as [it|[|]|]; try done.
  intros _. by destruct Hscan as [Hall _].
Qed.

Lemma awaitAny_register_waiting (cur : Coro) (h : heap)
    (awaitables : Collection) :
  Forall (pending_at h) awaitables →
  Forall (waiting_at cur (awaitAny_register cur h awaitables)) awaitables.
Proof.
  rewrite !Forall_forall. intros Hpend e He q ->.
  destruct (Hpend _ He q eq_refl) as (a & Ha & Hd).
  exists (set_awaitingCoro (Some cur) a).
  rewrite awaitAny_register_lookup, decide_True by done. by rewrite Ha.
Qed.

Lemma awaitAny_register_only_registered (cur : Coro) (h : heap)
    (awaitables : Collection) :
  (∀ q a, h !! q = Some a → awaitingCoro a = Some cur → isDone a = true) →
  only_registered cur awaitables (awaitAny_register cur h awaitables).
Proof.
  intros Hfree q a' Ha' Haw Hd. rewrite awaitAny_register_lookup in Ha'.
  destruct (decide (Some q ∈ awaitables)); [done|].
  rewrite (Hfree q a' Ha' Haw) in Hd. done.
Qed.

Lemma same_waiters_waiting (cur : Coro) (h h' : heap) (awaitables : Collection) :
  same_waiters h h' →
  Forall (waiting_at cur h) awaitables → Forall (waiting_at cur h') awaitables.
Proof.
  intros Hsame Hall. eapply Forall_impl; [exact Hall|].
  intros e He q ->. destruct (He q eq_refl) as (a & Ha & Hd & Haw).
  specialize (Hsame q). rewrite Ha in Hsame.
  destruct (h' !! q) as [a'|]; [|done]. destruct Hsame as [Hs Hw].
  exists a'. split; [done|]. split; [|congruence].
  by rewrite (isDone_same_state a a').
Qed.

Lemma same_waiters_only_registered (cur : Coro) (h h' : heap)
    (awaitables : Collection) :
  same_waiters h h' →
  only_registered cur awaitables h → only_registered cur awaitables h'.
Proof.
  intros Hsame Hreg q a' Ha' Haw Hd. specialize (Hsame q).
  rewrite Ha' in Hsame. destruct (h !! q) as [a|] eqn:Ha; [|congruence].
  destruct Hsame as [Hs Hw]. apply (Hreg q a Ha); [congruence|].
  by rewrite <- (isDone_same_state a a').
Qed.

Lemma insert_same_waiters (h : heap) (p : ptr) (a a' : AwaitableImpl) :
  h !! p = Some a → state a' = state a → awaitingCoro a' = awaitingCoro a →
  same_waiters h (<[p := a']> h).
Proof.
  intros Ha Hs Hw q. destruct (decide (q = p)) as [->|Hne].
  - by rewrite Ha, lookup_insert_eq.
  - rewrite lookup_insert_ne by done. by destruct (h !! q).
Qed.

Lemma same_waiters_refl (h : heap) : same_waiters h h.
Proof. intros q. by destruct (h !! q). Qed.

Lemma Awaitable_new_same_waiters (h : heap) (t : string) :
  same_waiters h (fst (Awaitable_new h t)).
Proof.
  intros q. simpl. destruct (decide (q = fresh (dom h))) as [->|Hne].
  - rewrite lookup_insert_eq.
    pose proof (Awaitable_new_fresh h t) as Hf. simpl in Hf. by rewrite Hf.
  - rewrite lookup_insert_ne by done. by destruct (h !! q).
Qed.

Lemma takeCompleter_same_waiters (h h' : heap) (p : ptr) (c : Completer) :
  takeCompleter h p = Some (h', c) → same_waiters h h'.
Proof.
  unfold takeCompleter. destruct (h !! p) as [a|] eqn:Ha; [|done].
  destruct (didTakeCompleter a); [done|]. intros [= <- <-].
  by apply (insert_same_waiters h p a).
Qed.

Lemma Awaitable_then_same_waiters (h : heap) (p : ptr) (f : Action) :
  same_waiters h (Awaitable_then h p f).
Proof.
  unfold Awaitable_then. destruct (h !! p) as [a|] eqn:Ha.
  - by apply (insert_same_waiters h p a).
  - apply same_waiters_refl.
Qed.

(** An Awaitable [p] that was pending becomes terminal while the coroutine
    is suspended in [awaitAny]: if the coroutine is its awaiting coroutine,
    [p] is in the collection and the third loop returns its position with
    every element cleared; if not, the collection is as it was. *)
Lemma awaitAny_terminal_transition (cur : Coro) (awaitables : Collection)
    (h : heap) (p : ptr) (a : AwaitableImpl) (st : State) (e : exception_ptr) :
  Forall (waiting_at cur h) awaitables →
  only_registered cur awaitables h →
  h !! p = Some a → isDone a = false →
  st = ST_Completed ∨ st = ST_Failed →
  if bool_decide (awaitingCoro a = Some cur) then
    ∃ h1 it,
      awaitAny_resume (<[p := set_state st e a]> h) awaitables =
        (h1, AnyReturn it) ∧
      awaitables !! it = Some (Some p) ∧
      Forall (cleared_at h1) awaitables ∧
      done_at h1 (Some p) = true
  else
    Forall (waiting_at cur (<[p := set_state st e a]> h)) awaitables ∧
    only_registered cur awaitables (<[p := set_state st e a]> h).
Proof.
  intros Hwait Hreg Ha Hd Hst.
  assert (isDone (set_state st e a) = true) as Hdone'.
  { apply isDone_state. simpl. by destruct Hst as [->| ->]; [left|right]. }
  set (h' := <[p := set_state st e a]> h).
  case_bool_decide as Haw.
  - assert (Some p ∈ awaitables) as Hin by by eapply Hreg.
    assert (done_at h' (Some p) = true) as Hpd.
    { unfold done_at, selectAwaitable, h'. by rewrite lookup_insert_eq. }
    assert (∀ q, Some q ∈ awaitables → done_at h' (Some q) = true → q = p)
      as Honly.
    { intros q Hq Hqd. destruct (decide (q = p)) as [|Hne]; [done|].
      rewrite Forall_forall in Hwait.
      destruct (Hwait _ Hq q eq_refl) as (b & Hb & Hbd & _).
      unfold done_at, selectAwaitable, h' in Hqd.
      rewrite lookup_insert_ne, Hb in Hqd by done. congruence. }
    unfold awaitAny_resume, Collection_begin, Collection_end.
    pose proof (awaitAny_collect_none awaitables h' 0 (length awaitables))
      as Hres.
    pose proof (awaitAny_collect_lookup awaitables h' 0 None
                  (length awaitables)) as Hheap.
    destruct (awaitAny_collect h' awaitables 0 None (length awaitables))
      as [[h1 [p'|]] cp]; cbn [fst snd] in *.
    + destruct Hres as (i & -> & Hi & Hp'd & _).
      assert (p' = p) as ->.
      { apply Honly; [|done]. apply list_elem_of_lookup. by exists i. }
      exists h1, i. split; [done|]. split; [done|]. split.
      * rewrite Forall_forall in Hwait. apply Forall_forall. intros x Hx q ->.
        destruct (Hwait _ Hx q eq_refl) as (b & Hb & _).
        rewrite Hheap, decide_True by done. unfold h'.
        destruct (decide (q = p)) as [->|Hne].
        -- rewrite lookup_insert_eq. simpl. eauto.
        -- rewrite lookup_insert_ne, Hb by done. simpl. eauto.
      * unfold done_at, selectAwaitable. rewrite Hheap, decide_True by done.
        unfold h'. by rewrite lookup_insert_eq.
    + rewrite Forall_forall in Hres. rewrite (Hres _ Hin) in Hpd. done.
  - assert (Some p ∉ awaitables) as Hnin.
    { intros Hin. rewrite Forall_forall in Hwait.
      destruct (Hwait _ Hin p eq_refl) as (b & Hb & _ & Hbw). congruence. }
    split.
    + eapply Forall_impl; [exact Hwait|]. intros x Hx q ->.
      destruct (Hx q eq_refl) as (b & Hb & Hbd & Hbw). exists b.
      unfold h'. destruct (decide (q = p)) as [->|Hne].
      * congruence.
      * by rewrite lookup_insert_ne.
    + intros q b Hb Hbw Hbd. unfold h' in Hb.
      destruct (decide (q = p)) as [->|Hne].
      * rewrite lookup_insert_eq in Hb. injection Hb as <-. congruence.
      * rewrite lookup_insert_ne in Hb by done. by eapply Hreg.
Qed.

(** ** The coroutine suspended in [awaitAny] *)

Lemma resumes_events (cur : Coro) (f : option Action) (w : option Coro)
    (mk : Coro → event) :
  (∀ c, resumes cur (mk c) = bool_decide (c = cur)) →
  existsb (resumes cur)
    (match f with Some f => [EvThen f] | None => [] end ++
     match w with Some c => [mk c] | None => [] end) =
  bool_decide (w = Some cur).
Proof.
  intros Hmk. destruct f, w as [c|]; simpl; rewrite ?Hmk, ?orb_false_r;
    try done; apply bool_decide_ext; split; congruence.
Qed.

Lemma Completer_complete_cases (cur : Coro) (h : heap) (c : Completer) :
  Completer_complete h c = (h, []) ∨
  ∃ p a evs,
    mRef c = Some p ∧ h !! p = Some a ∧ isDone a = false ∧
    Completer_complete h c = (<[p := set_state ST_Completed None a]> h, evs) ∧
    existsb (resumes cur) evs = bool_decide (awaitingCoro a = Some cur).
Proof.
  unfold Completer_complete, isExpired, Awaitable_complete.
  destruct (mRef c) as [p|]; [|by left].
  destruct (h !! p) as [a|] eqn:Ha; [|by left].
  destruct (completerRef a); simpl; [|by left].
  destruct (isDone a) eqn:Hd; [by left|]. right.
  eexists p, a, _. repeat split; try done.
  by apply (resumes_events cur (thenSlot a) (awaitingCoro a) EvYieldTo).
Qed.

Lemma Completer_fail_cases (cur : Coro) (h : heap) (c : Completer)
    (e : exception_ptr) :
  Completer_fail h c e = (h, []) ∨
  ∃ p a evs,
    mRef c = Some p ∧ h !! p = Some a ∧ isDone a = false ∧
    Completer_fail h c e = (<[p := set_state ST_Failed e a]> h, evs) ∧
    existsb (resumes cur) evs = bool_decide (awaitingCoro a = Some cur).
Proof.
  unfold Completer_fail, isExpired, Awaitable_fail.
  destruct (mRef c) as [p|]; [|by left].
  destruct (h !! p) as [a|] eqn:Ha; [|by left].
  destruct (completerRef a); simpl; [|by left].
  destruct (isDone a) eqn:Hd; [by left|]. right.
  eexists p, a, _. repeat split; try done.
  by apply (resumes_events cur (thenSlot a) (awaitingCoro a)
              (λ c, EvYieldExceptionTo c e)).
Qed.

Lemma finish_keeps (bound : option ptr) (h : heap) (co : costate) (q : ptr)
    (a : AwaitableImpl) :
  h !! q = Some a →
  ∃ a', (finish bound h co).1 !! q = Some a' ∧
        awaitingCoro a' = awaitingCoro a ∧
        (isDone a = true → isDone a' = true).
Proof.
  intros Ha.
  assert (∀ st e pc,
    ∃ a', (match h !! pc with
           | None => (h, [])
           | Some b =>
             if isDone b then (h, []) else
               (<[pc := set_state st e b]> h, @nil event)
           end).1 !! q = Some a' ∧
          awaitingCoro a' = awaitingCoro a ∧
          (isDone a = true → isDone a' = true)) as Hgen.
  { intros st e pc. destruct (h !! pc) as [b|] eqn:Hb; [|by exists a].
    destruct (isDone b) eqn:Hd; [by exists a|]. simpl.
    destruct (decide (q = pc)) as [->|Hne].
    - rewrite lookup_insert_eq. eexists. split; [done|].
      assert (b = a) as -> by congruence. split; [done|]. congruence.
    - rewrite lookup_insert_ne by done. by exists a. }
  unfold finish, Awaitable_complete, Awaitable_fail.
  destruct bound as [pc|]; [|by exists a].
  destruct co as [k|[ |it|e| ]]; try (by exists a).
  - destruct (Hgen ST_Completed None pc) as (a' & Ha' & ?). exists a'.
    split; [|done]. destruct (h !! pc) as [b|]; [|done].
    by destruct (isDone b).
  - destruct (Hgen ST_Completed None pc) as (a' & Ha' & ?). exists a'.
    split; [|done]. destruct (h !! pc) as [b|]; [|done].
    by destruct (isDone b).
  - destruct (Hgen ST_Failed e pc) as (a' & Ha' & ?). exists a'.
    split; [|done]. destruct (h !! pc) as [b|]; [|done].
    by destruct (isDone b).
Qed.

Lemma deliver_awaitAny (cur : Coro) (bound : option ptr)
    (awaitables : Collection) (s : sys) (evs : list event)
    (p : ptr) (a : AwaitableImpl) (st : State) (e : exception_ptr) :
  s_co s = CoSuspended (KAwaitAny awaitables) →
  Forall (waiting_at cur (s_heap s)) awaitables →
  only_registered cur awaitables (s_heap s) →
  s_heap s !! p = Some a → isDone a = false →
  st = ST_Completed ∨ st = ST_Failed →
  existsb (resumes cur) evs = bool_decide (awaitingCoro a = Some cur) →
  let s' := deliver cur bound s (<[p := set_state st e a]> (s_heap s)) evs in
  (s_co s' = CoSuspended (KAwaitAny awaitables) ∧
   Forall (waiting_at cur (s_heap s')) awaitables ∧
   only_registered cur awaitables (s_heap s')) ∨
  (∃ it, s_co s' = CoDone (RPos it) ∧
         awaitables !! it = Some (Some p) ∧
         Forall (cleared_at (s_heap s')) awaitables ∧
         done_at (s_heap s') (Some p) = true).
Proof.
  intros Hco Hwait Hreg Ha Hd Hst Hevs. cbv zeta. unfold deliver.
  rewrite Hco, Hevs.
  pose proof (awaitAny_terminal_transition cur awaitables (s_heap s) p a st e
                Hwait Hreg Ha Hd Hst) as Htr.
  destruct (bool_decide (awaitingCoro a = Some cur)).
  - right. destruct Htr as (h1 & it & Hres & Hit & Hclr & Hpd).
    unfold resume. rewrite Hres.
    pose proof (finish_keeps bound h1 (CoDone (RPos it))) as Hkeep.
    destruct (finish bound h1 (CoDone (RPos it))) as [h2 evs'].
    simpl in *. exists it. repeat split; try done.
    + eapply Forall_impl; [exact Hclr|]. intros x Hx q ->.
      destruct (Hx q eq_refl) as (b & Hb & Hbw).
      destruct (Hkeep q b Hb) as (b' & Hb' & Hw' & _). exists b'.
      split; [done|congruence].
    + unfold done_at, selectAwaitable in *.
      destruct (h1 !! p) as [b|] eqn:Hb; [|done].
      destruct (Hkeep p b Hb) as (b' & Hb' & _ & Hd').
      rewrite Hb'. by apply Hd'.
  - left. simpl. by destruct Htr.
Qed.

Lemma awaitAny_step (cur : Coro) (bound : option ptr)
    (awaitables : Collection) (s s' : sys) (o : mop) :
  s_co s = CoSuspended (KAwaitAny awaitables) →
  Forall (waiting_at cur (s_heap s)) awaitables →
  only_registered cur awaitables (s_heap s) →
  mstep cur bound s o = Some s' →
  (s_co s' = CoSuspended (KAwaitAny awaitables) ∧
   Forall (waiting_at cur (s_heap s')) awaitables ∧
   only_registered cur awaitables (s_heap s')) ∨
  (∃ c p it,
     completer_op (s_completers s) o = Some c ∧ mRef c = Some p ∧
     s_co s' = CoDone (RPos it) ∧
     awaitables !! it = Some (Some p) ∧
     Forall (cleared_at (s_heap s')) awaitables ∧
     done_at (s_heap s') (Some p) = true).
Proof.
  intros Hco Hwait Hreg Hstep.
  assert (∀ h' cs log, same_waiters (s_heap s) h' →
    s' = mkSys h' cs log (s_called s) (s_co s) →
    s_co s' = CoSuspended (KAwaitAny awaitables) ∧
    Forall (waiting_at cur (s_heap s')) awaitables ∧
    only_registered cur awaitables (s_heap s')) as Hquiet.
  { intros h' cs log Hsame ->. simpl. split; [done|]. split.
    - by eapply same_waiters_waiting.
    - by eapply same_waiters_only_registered. }
  destruct o as [t|q|k|k e|q f]; simpl in Hstep.
  - left. injection Hstep as <-. eapply Hquiet; [|done].
    apply (Awaitable_new_same_waiters (s_heap s) t).
  - left. destruct (takeCompleter (s_heap s) q) as [[h c]|] eqn:Ht; [|done].
    simpl in Hstep. injection Hstep as <-. eapply Hquiet; [|done].
    by eapply takeCompleter_same_waiters.
  - destruct (s_completers s !! k) as [c|] eqn:Hc; [|done]. simpl in Hstep.
    destruct (Completer_complete_cases cur (s_heap s) c)
      as [Heq|(p & a & evs & Hr & Ha & Hd & Heq & Hevs)];
      rewrite Heq in Hstep; injection Hstep as <-.
    + left. unfold deliver. rewrite Hco. simpl. done.
    + destruct (deliver_awaitAny cur bound awaitables s evs p a ST_Completed
                  None Hco Hwait Hreg Ha Hd (or_introl eq_refl) Hevs)
        as [Hstay|(it & Hdone)]; [by left|right].
      exists c, p, it. simpl. by rewrite Hc.
  - destruct (s_completers s !! k) as [c|] eqn:Hc; [|done]. simpl in Hstep.
    destruct (Completer_fail_cases cur (s_heap s) c e)
      as [Heq|(p & a & evs & Hr & Ha & Hd & Heq & Hevs)];
      rewrite Heq in Hstep; injection Hstep as <-.
    + left. unfold deliver. rewrite Hco. simpl. done.
    + destruct (deliver_awaitAny cur bound awaitables s evs p a ST_Failed
                  e Hco Hwait Hreg Ha Hd (or_intror eq_refl) Hevs)
        as [Hstay|(it & Hdone)]; [by left|right].
      exists c, p, it. simpl. by rewrite Hc.
  - left. injection Hstep as <-. eapply Hquiet; [|done].
    apply Awaitable_then_same_waiters.
Qed.

Lemma mstep_done (cur : Coro) (bound : option ptr) (s s' : sys) (o : mop)
    (r : coresult) :
  s_co s = CoDone r → mstep cur bound s o = Some s' → s_co s' = CoDone r.
Proof.
  intros Hco Hstep. destruct o as [t|q|k|k e|q f]; simpl in Hstep.
  - by injection Hstep as <-.
  - destruct (takeCompleter (s_heap s) q) as [[h c]|]; [|done].
    simpl in Hstep. by injection Hstep as <-.
  - destruct (s_completers s !! k) as [c|]; [|done]. simpl in Hstep.
    destruct (Completer_complete (s_heap s) c) as [h evs].
    injection Hstep as <-. unfold deliver. by rewrite Hco.
  - destruct (s_completers s !! k) as [c|]; [|done]. simpl in Hstep.
    destruct (Completer_fail (s_heap s) c e) as [h evs].
    injection Hstep as <-. unfold deliver. by rewrite Hco.
  - by injection Hstep as <-.
Qed.

Lemma run_done (cur : Coro) (bound : option ptr) (script : list mop)
    (r : coresult) :
  ∀ s, s_co s = CoDone r → s_co (run cur bound s script) = CoDone r.
Proof.
  induction script as [|o script IH]; intros s Hco; simpl; [done|].
  destruct (mstep cur bound s o) as [s'|] eqn:Hstep; [|done].
  apply IH. by eapply mstep_done.
Qed.

Lemma run_awaitAny (cur : Coro) (bound : option ptr) (awaitables : Collection)
    (script : list mop) :
  ∀ s1,
    s_co s1 = CoSuspended (KAwaitAny awaitables) →
    Forall (waiting_at cur (s_heap s1)) awaitables →
    only_registered cur awaitables (s_heap s1) →
    match s_co (run cur bound s1 script) with
    | CoSuspended k =>
      k = KAwaitAny awaitables ∧
      Forall (waiting_at cur (s_heap (run cur bound s1 script))) awaitables
    | CoDone r =>
      ∃ pre o post c p it,
        script = pre ++ o :: post ∧
        s_co (run cur bound s1 pre) = CoSuspended (KAwaitAny awaitables) ∧
        completer_op (s_completers (run cur bound s1 pre)) o = Some c ∧
        mRef c = Some p ∧
        s_co (run cur bound s1 (pre ++ [o])) = CoDone (RPos it) ∧
        r = RPos it ∧
        awaitables !! it = Some (Some p) ∧
        Forall (cleared_at (s_heap (run cur bound s1 (pre ++ [o])))) awaitables ∧
        done_at (s_heap (run cur bound s1 (pre ++ [o]))) (Some p) = true
    end.
Proof.
  induction script as [|o script IH]; intros s1 Hco Hwait Hreg; simpl.
  { by rewrite Hco. }
  destruct (mstep cur bound s1 o) as [s2|] eqn:Hstep.
  2: { by rewrite Hco. }
  destruct (awaitAny_step cur bound awaitables s1 s2 o Hco Hwait Hreg Hstep)
    as [(Hco2 & Hwait2 & Hreg2)|(c & p & it & Hc & Hr & Hco2 & Hit & Hclr & Hpd)].
  - specialize (IH s2 Hco2 Hwait2 Hreg2).
    destruct (s_co (run cur bound s2 script)) as [k|r]; [done|].
    destruct IH as (pre & o' & post & c & p & it & -> & H0 & Hc & Hr & H2 & IH).
    exists (o :: pre), o', post, c, p, it. simpl. rewrite Hstep. done.
  - rewrite (run_done cur bound script (RPos it) s2 Hco2).
    exists [], o, script, c, p, it. simpl. rewrite Hstep. done.
Qed.

(** C6. A coroutine that awaits nothing calls [awaitAny] and suspends.  As
    long as it is suspended no element is done and every element has it as
    awaiting coroutine.  It comes back exactly when a completer completes
    or fails an element of the collection: [awaitAny] then returns the
    position of that very element, which is done, and at that moment every
    element of the collection has its awaiting coroutine cleared. *)
Theorem C6_awaitAny_returns_the_cause (cur : Coro) (bound : option ptr)
    (s : sys) (awaitables : Collection) (script : list mop) :
  (∀ q a, s_heap s !! q = Some a → awaitingCoro a = Some cur →
          isDone a = true) →
  (awaitAny cur (s_heap s) awaitables).2 = AnyYield masterCoro →
  let s1 := enter_awaitAny cur s awaitables in
  match s_co (run cur bound s1 script) with
  | CoSuspended k =>
    k = KAwaitAny awaitables ∧
    Forall (waiting_at cur (s_heap (run cur bound s1 script))) awaitables
  | CoDone r =>
    ∃ pre o post c p it,
      script = pre ++ o :: post ∧
      s_co (run cur bound s1 pre) = CoSuspended (KAwaitAny awaitables) ∧
      completer_op (s_completers (run cur bound s1 pre)) o = Some c ∧
      mRef c = Some p ∧
      s_co (run cur bound s1 (pre ++ [o])) = CoDone (RPos it) ∧
      r = RPos it ∧
      awaitables !! it = Some (Some p) ∧
      Forall (cleared_at (s_heap (run cur bound s1 (pre ++ [o])))) awaitables ∧
      done_at (s_heap (run cur bound s1 (pre ++ [o]))) (Some p) = true
  end.
Proof.
  intros Hfree Hyield s1.
  destruct (awaitAny_yield_inv cur (s_heap s) awaitables masterCoro Hyield)
    as (Hcur & Heq & Hpend).
  assert (s1 = mkSys (awaitAny_register cur (s_heap s) awaitables)
                     (s_completers s) (s_log s) (s_called s)
                     (CoSuspended (KAwaitAny awaitables))) as Hs1.
  { unfold s1, enter_awaitAny. by rewrite Heq. }
  apply run_awaitAny; rewrite Hs1; simpl.
  - done.
  - by apply awaitAny_register_waiting.
  - by apply awaitAny_register_only_registered.
Qed.

Lemma C6_witness :
  ∃ pre o post c p it,
    [OpNew "z"; OpFail 1 (Some 9); OpComplete 0] = pre ++ o :: post ∧
    completer_op
      (s_completers
         (run 5 None (enter_awaitAny 5 s_any [Some 1; None; Some 2; Some 3]) pre))
      o = Some c ∧
    mRef c = Some p ∧ RPos 2 = RPos it ∧
    [Some 1; None; Some 2; Some 3] !! it = Some (Some p).
Proof.
  pose proof (C6_awaitAny_returns_the_cause 5 None s_any
                [Some 1; None; Some 2; Some 3]
                [OpNew "z"; OpFail 1 (Some 9); OpComplete 0]) as H.
  cbv zeta in H.
  change (s_co (run 5 None (enter_awaitAny 5 s_any [Some 1; None; Some 2; Some 3])
                    [OpNew "z"; OpFail 1 (Some 9); OpComplete 0]))
    with (CoDone (RPos 2)) in H.
  destruct H as (pre & o & post & c & p & it & H1 & _ & H3 & H4 & _ & H6 & H7 & _).
  - intros q a Ha Haw. exfalso. revert Ha Haw. unfold s_any, h_any. simpl.
    rewrite !lookup_insert. repeat case_decide; intros [= <-]; done.
  - reflexivity.
  - by exists pre, o, post, c, p, it.
Defined.

(** ** [asyncAny] on an empty collection *)

Lemma never_inv_insert (cur : Coro) (pc : ptr) (s : sys) (p : ptr)
    (a a' : AwaitableImpl) (cs : list Completer) (log : list event) :
  never_inv cur pc s →
  s_heap s !! p = Some a →
  awaitingCoro a' = awaitingCoro a →
  (p = pc → state a' = state a ∧ didTakeCompleter a' = didTakeCompleter a) →
  Forall (λ c, mRef c ≠ Some pc) cs →
  never_inv cur pc (mkSys (<[p := a']> (s_heap s)) cs log (s_called s) (s_co s)).
Proof.
  intros (Hco & (b & Hb & Hs & Ht) & Hnw & Hcs) Ha Hw Hpc Hcs'.
  split; [done|]. split; [|split; [|done]]; simpl.
  - destruct (decide (p = pc)) as [->|Hne].
    + exists a'. rewrite lookup_insert_eq. assert (b = a) as -> by congruence.
      destruct (Hpc eq_refl) as [-> ->]. done.
    + exists b. by rewrite lookup_insert_ne.
  - intros q x Hx. destruct (decide (q = p)) as [->|Hne].
    + rewrite lookup_insert_eq in Hx. injection Hx as <-. rewrite Hw.
      by eapply Hnw.
    + rewrite lookup_insert_ne in Hx by done. by eapply Hnw.
Qed.

Lemma never_inv_deliver (cur : Coro) (pc : ptr) (s : sys) (h : heap)
    (evs : list event) (c : Completer) :
  never_inv cur pc s → mRef c ≠ Some pc →
  ((h, evs) = (s_heap s, []) ∨
   ∃ p a st e,
     mRef c = Some p ∧ s_heap s !! p = Some a ∧
     (h, evs).1 = <[p := set_state st e a]> (s_heap s) ∧
     existsb (resumes cur) evs = bool_decide (awaitingCoro a = Some cur)) →
  never_inv cur pc (deliver cur (Some pc) s h evs).
Proof.
  intros Hinv Hc Hcases. pose proof Hinv as (Hco & _ & Hnw & Hcs).
  unfold deliver. rewrite Hco.
  destruct Hcases as [[= -> ->]|(p & a & st & e & Hr & Ha & Hh & Hevs)].
  - simpl. destruct Hinv as (? & ? & ? & ?). by repeat split.
  - simpl in Hh. subst h. rewrite Hevs.
    rewrite bool_decide_eq_false_2 by by eapply Hnw.
    rewrite <- Hco.
    apply (never_inv_insert cur pc s p a); try done.
    intros ->. congruence.
Qed.

Lemma never_inv_step (cur : Coro) (pc : ptr) (s s' : sys) (o : mop) :
  never_inv cur pc s → mstep cur (Some pc) s o = Some s' → never_inv cur pc s'.
Proof.
  intros Hinv Hstep. pose proof Hinv as (Hco & (b & Hb & Hs & Ht) & Hnw & Hcs).
  destruct o as [t|q|k|k e|q f]; simpl in Hstep.
  - injection Hstep as <-. split; [done|]. split; [|split; [|done]]; simpl.
    + exists b. rewrite lookup_insert_ne; [done|]. intros Heq.
      pose proof (Awaitable_new_fresh (s_heap s) t) as Hf. simpl in Hf.
      congruence.
    + intros q x Hx. destruct (decide (q = fresh (dom (s_heap s)))) as [->|Hne].
      * rewrite lookup_insert_eq in Hx. by injection Hx as <-.
      * rewrite lookup_insert_ne in Hx by done. by eapply Hnw.
  - unfold takeCompleter in Hstep.
    destruct (s_heap s !! q) as [a|] eqn:Ha; [|done].
    destruct (didTakeCompleter a) eqn:Hta; [done|]. simpl in Hstep.
    injection Hstep as <-.
    assert (q ≠ pc) as Hne by (intros ->; congruence).
    apply (never_inv_insert cur pc s q a); try done.
    apply Forall_app. split; [done|]. repeat constructor. simpl. congruence.
  - destruct (s_completers s !! k) as [c|] eqn:Hc; [|done]. simpl in Hstep.
    assert (mRef c ≠ Some pc) as Hcpc.
    { rewrite Forall_forall in Hcs. apply Hcs. by eapply list_elem_of_lookup_2. }
    pose proof (Completer_complete_cases cur (s_heap s) c) as Hcases.
    destruct (Completer_complete (s_heap s) c) as [h evs].
    injection Hstep as <-. apply (never_inv_deliver cur pc s h evs c); try done.
    destruct Hcases as [Heq|(p & a & evs0 & Hr & Ha & _ & [= -> ->] & Hevs)];
      [by left|right].
    by exists p, a, ST_Completed, None.
  - destruct (s_completers s !! k) as [c|] eqn:Hc; [|done]. simpl in Hstep.
    assert (mRef c ≠ Some pc) as Hcpc.
    { rewrite Forall_forall in Hcs. apply Hcs. by eapply list_elem_of_lookup_2. }
    pose proof (Completer_fail_cases cur (s_heap s) c e) as Hcases.
    destruct (Completer_fail (s_heap s) c e) as [h evs].
    injection Hstep as <-. apply (never_inv_deliver cur pc s h evs c); try done.
    destruct Hcases as [Heq|(p & a & evs0 & Hr & Ha & _ & [= -> ->] & Hevs)];
      [by left|right].
    by exists p, a, ST_Failed, e.
  - injection Hstep as <-. unfold Awaitable_then.
    destruct (s_heap s !! q) as [a|] eqn:Ha.
    + by apply (never_inv_insert cur pc s q a).
    + by destruct s.
Qed.

Lemma never_inv_run (cur : Coro) (pc : ptr) (script : list mop) :
  ∀ s, never_inv cur pc s → never_inv cur pc (run cur (Some pc) s script).
Proof.
  induction script as [|o script IH]; intros s Hinv; simpl; [done|].
  destruct (mstep cur (Some pc) s o) as [s'|] eqn:Hstep; [|done].
  apply IH. by eapply never_inv_step.
Qed.

(** C10. [asyncAny] on an empty collection gives a composite Awaitable that
    never completes: its coroutine is parked at [yieldTo(masterCoro())]
    without being anybody's awaiting coroutine, so whatever the master side
    does, the coroutine stays parked and the Awaitable stays Running.
    [awaitAny] on the same empty collection returns [begin()] at once. *)
Theorem C10_asyncAny_empty_never_completes (cur : Coro) (s : sys)
    (script : list mop) :
  cur ≠ masterCoro →
  no_waiter cur (s_heap s) →
  Forall (λ c, ∀ p, mRef c = Some p → is_Some (s_heap s !! p))
         (s_completers s) →
  let s' := run cur (Some (asyncAny cur s []).2) (asyncAny cur s []).1 script in
  s_co s' = CoSuspended KNever ∧
  (∃ a, s_heap s' !! (asyncAny cur s []).2 = Some a ∧
        state a = ST_Running ∧ isDone a = false) ∧
  awaitAny cur (s_heap s) [] = (s_heap s, AnyReturn (Collection_begin [])).
Proof.
  intros Hcur Hnw Hcs s'.
  assert (never_inv cur (asyncAny cur s []).2 (asyncAny cur s []).1) as Hinv.
  { simpl. split; [done|]. split; [|split]; simpl.
    - eexists. rewrite lookup_insert_eq. done.
    - intros q a Ha. destruct (decide (q = fresh (dom (s_heap s)))) as [->|Hne].
      + rewrite lookup_insert_eq in Ha. by injection Ha as <-.
      + rewrite lookup_insert_ne in Ha by done. by eapply Hnw.
    - eapply Forall_impl; [exact Hcs|]. intros c Hc Heq.
      destruct (Hc _ Heq) as [a Ha].
      assert (s_heap s !! fresh (dom (s_heap s)) = None) as Hf
        by apply not_elem_of_dom, is_fresh.
      congruence. }
  apply (never_inv_run cur _ script) in Hinv.
  fold s' in Hinv. destruct Hinv as (Hco & (a & Ha & Hs & _) & _ & _).
  split; [done|]. split.
  - exists a. split; [done|]. split; [done|].
    unfold isDone, didComplete, didFail. by rewrite Hs.
  - unfold awaitAny. by destruct (decide (cur = masterCoro)).
Qed.

Lemma C10_witness :
  s_co (run 9 (Some 4) (asyncAny 9 s_any []).1
            [OpTake 4; OpComplete 0; OpNew "n"; OpFail 1 (Some 3)]) =
    CoSuspended KNever ∧
  s_co (run 9 (Some 4) (asyncAny 9 s_any []).1
            [OpComplete 0; OpNew "n"; OpFail 1 (Some 3)]) =
    CoSuspended KNever.
Proof.
  split.
  - apply (C10_asyncAny_empty_never_completes 9 s_any
             [OpTake 4; OpComplete 0; OpNew "n"; OpFail 1 (Some 3)]).
    + done.
    + intros q a Ha. revert Ha. unfold s_any, h_any. simpl.
      rewrite !lookup_insert. repeat case_decide; intros [= <-]; done.
    + repeat constructor; intros p [= <-]; vm_compute; eauto.
  - apply (C10_asyncAny_empty_never_completes 9 s_any
             [OpComplete 0; OpNew "n"; OpFail 1 (Some 3)]).
    + done.
    + intros q a Ha. revert Ha. unfold s_any, h_any. simpl.
      rewrite !lookup_insert. repeat case_decide; intros [= <-]; done.
    + repeat constructor; intros p [= <-]; vm_compute; eauto.
Defined.

(** * Further properties of the combinators *)

(** ** [awaitAll] without suspension, and its first suspension *)

Lemma awaitAll_all_completed (cur : Coro) (h : heap)
    (awaitables : Collection) :
  cur ≠ masterCoro →
  Forall (completed_at h) awaitables →
  awaitAll cur h awaitables = (h, selected awaitables, AllReturn).
Proof.
  intros Hcur Hall. unfold awaitAll, Collection_begin.
  destruct (decide (cur = masterCoro)); [done|]. generalize 0.
  induction Hall as [|[awt|] rest Hel Hall IH]; intros it; simpl; [done| |].
  - destruct (Hel awt eq_refl) as (a & Ha & Hs). unfold await.
    destruct (decide (cur = masterCoro)); [done|]. rewrite Ha, Hs.
    by rewrite IH.
  - apply IH.
Qed.

(** X1. When every selected element is already Completed (in particular on
    an empty collection) [awaitAll] returns at once: it has called
    [await()] on all selected elements in order and the heap is as it was. *)
Theorem X1_awaitAll_all_completed (cur : Coro) (h : heap)
    (awaitables : Collection) :
  cur ≠ masterCoro →
  Forall (completed_at h) awaitables →
  awaitAll cur h awaitables = (h, selected awaitables, AllReturn).
Proof. apply awaitAll_all_completed. Qed.

Lemma X1_witness :
  awaitAll 5 h_xy [Some 1; None; Some 2; Some 1] = (h_xy, [1; 2; 1], AllReturn).
Proof.
  apply (X1_awaitAll_all_completed 5 h_xy [Some 1; None; Some 2; Some 1]).
  - done.
  - repeat constructor; intros q [= <-]; eexists; split; reflexivity.
Defined.

(** X2. [awaitAll] suspends in the [await()] of the first selected element
    that is not done: that element gets the caller as awaiting coroutine,
    and nothing else in the heap changes; in particular no later element
    is registered or awaited. *)
Theorem X2_awaitAll_suspends_at_first_pending (cur : Coro) (h : heap)
    (awaitables : Collection) (it : nat) (p : ptr) (a : AwaitableImpl) :
  cur ≠ masterCoro →
  awaitables !! it = Some (Some p) →
  h !! p = Some a → isDone a = false →
  awaitingCoro a = None ∨ awaitingCoro a = Some cur →
  Forall (completed_at h) (take it awaitables) →
  ∃ target,
    awaitAll cur h awaitables =
      (<[p := set_awaitingCoro (Some cur) a]> h,
       selected (take (S it) awaitables), AllYield it target).
Proof.
  intros Hcur Hit Ha Hd Haw Hall.
  pose proof (awaitAll_loop_spec cur awaitables h 0) as Hspec.
  unfold awaitAll, Collection_begin.
  destruct (decide (cur = masterCoro)); [done|].
  assert (∀ rest it0 i, rest !! i = Some (Some p) →
            Forall (completed_at h) (take i rest) →
            ∃ target, awaitAll_loop cur h rest it0 =
              (<[p := set_awaitingCoro (Some cur) a]> h,
               selected (take (S i) rest), AllYield (it0 + i) target)) as Hgen.
  { clear Hspec Hit Hall. induction rest as [|element rest IH];
      intros it0 i Hi Hpre; [done|].
    destruct i as [|i]; simpl in Hi.
    - injection Hi as ->. simpl. unfold await.
      destruct (decide (cur = masterCoro)); [done|]. rewrite Ha.
      rewrite bool_decide_eq_true_2 by done. rewrite ?take_0, Nat.add_0_r.
      unfold isDone, didComplete, didFail in Hd.
      destruct (state a); try done; destruct (boundCoro a) as [[b [|]]|];
        eauto.
    - simpl in Hpre. apply Forall_cons in Hpre as [Hel Hpre].
      rewrite (Nat.add_succ_r it0 i). simpl.
      destruct (IH (S it0) i Hi Hpre) as [target Heq].
      destruct element as [awt|]; simpl.
      + destruct (Hel awt eq_refl) as (b & Hb & Hsb). unfold await.
        destruct (decide (cur = masterCoro)); [done|]. rewrite Hb, Hsb.
        rewrite Heq. eauto.
      + rewrite Heq. eauto. }
  destruct (Hgen awaitables 0 it Hit Hall) as [target Heq]. eauto.
Qed.

Lemma X2_witness :
  ∃ target,
    awaitAll 5 h_all [Some 1; Some 2; Some 3] =
      (<[2 := mkImpl "b" ST_Initial None None (Some 5) true true None]> h_all,
       [1; 2], AllYield 1 target).
Proof.
  apply (X2_awaitAll_suspends_at_first_pending 5 h_all [Some 1; Some 2; Some 3]
           1 2 (mkImpl "b" ST_Initial None None None true true None)).
  - done.
  - reflexivity.
  - reflexivity.
  - reflexivity.
  - by left.
  - repeat constructor; intros q [= <-]; eexists; split; reflexivity.
Defined.

(** X3. The combinators never complete, fail, create or destroy an
    Awaitable: from the heap before to the heap after [awaitAll],
    [awaitAny] and their continuations, the only field that may differ is
    the awaiting coroutine of an Awaitable that was already there. *)
Theorem X3_combinators_only_touch_awaitingCoro (cur : Coro) (h : heap)
    (awaitables : Collection) (it : nat) :
  only_awaiting h (awaitAll cur h awaitables).1.1 ∧
  only_awaiting h (awaitAll_resume cur h awaitables it).1.1 ∧
  only_awaiting h (awaitAny cur h awaitables).1 ∧
  only_awaiting h (awaitAny_resume h awaitables).1.
Proof.
  repeat split.
  - apply awaitAll_only.
  - apply awaitAll_resume_only.
  - apply awaitAny_only.
  - apply awaitAny_resume_only.
Qed.

(** ** [awaitAny] when nothing is done at entry *)

Lemma awaitAny_scan_pending (h : heap) (rest : Collection) :
  Forall (pending_at h) rest →
  ∀ it b, awaitAny_scan h rest it b = ScanPending (b || has_selected rest).
Proof.
  induction 1 as [|[awt|] rest Hel Hall IH]; intros it b; simpl.
  - by rewrite orb_false_r.
  - destruct (Hel awt eq_refl) as (a & Ha & Hd). rewrite Ha, Hd, IH.
    by rewrite orb_true_r.
  - apply IH.
Qed.

(** X4. When no selected element is done at entry and at least one element
    is selected, [awaitAny] yields to the master coroutine after making the
    caller the awaiting coroutine of every selected element; nothing else
    in the heap changes. *)
Theorem X4_awaitAny_registers_everywhere (cur : Coro) (h : heap)
    (awaitables : Collection) :
  cur ≠ masterCoro →
  Forall (pending_at h) awaitables →
  has_selected awaitables = true →
  ∃ h', awaitAny cur h awaitables = (h', AnyYield masterCoro) ∧
        ∀ q, h' !! q =
             if decide (Some q ∈ awaitables)
             then set_awaitingCoro (Some cur) <$> h !! q
             else h !! q.
Proof.
  intros Hcur Hpend Hsel. exists (awaitAny_register cur h awaitables).
  split; [|apply awaitAny_register_lookup].
  unfold awaitAny, Collection_begin.
  destruct (decide (cur = masterCoro)); [done|].
  by rewrite (awaitAny_scan_pending h awaitables Hpend), Hsel.
Qed.

Lemma X4_witness :
  ∃ h', awaitAny 5 h_any [Some 1; None; Some 3] = (h', AnyYield masterCoro) ∧
        awaitingCoro <$> h' !! 1 = Some (Some 5) ∧
        awaitingCoro <$> h' !! 2 = Some None ∧
        awaitingCoro <$> h' !! 3 = Some (Some 5).
Proof.
  destruct (X4_awaitAny_registers_everywhere 5 h_any [Some 1; None; Some 3])
    as (h' & Heq & Hlook).
  - done.
  - repeat constructor; intros q [= <-]; eexists; split; reflexivity.
  - reflexivity.
  - exists h'. split; [done|]. rewrite !Hlook. repeat split.
Defined.

(** X5. A collection in which no element selects an Awaitable behaves
    like the empty one: [awaitAny] returns [begin()] at once, although that
    iterator may designate an element. *)
Theorem X5_awaitAny_nothing_selected (cur : Coro) (h : heap)
    (awaitables : Collection) :
  cur ≠ masterCoro →
  has_selected awaitables = false →
  awaitAny cur h awaitables = (h, AnyReturn (Collection_begin awaitables)).
Proof.
  intros Hcur Hsel. unfold awaitAny, Collection_begin.
  destruct (decide (cur = masterCoro)); [done|].
  rewrite (awaitAny_scan_pending h awaitables); [by rewrite Hsel|].
  clear Hcur. induction awaitables as [|[awt|] rest IH]; simpl in *;
    [constructor|done|].
  constructor; [by intros q | by apply IH].
Qed.

Lemma X5_witness :
  awaitAny 5 h_any [None; None] = (h_any, AnyReturn 0).
Proof. by apply (X5_awaitAny_nothing_selected 5 h_any [None; None]). Defined.

(** ** [awaitAny] after its yield *)

Lemma awaitAny_resume_first_done (h : heap) (awaitables : Collection)
    (it : nat) (p : ptr) :
  awaitables !! it = Some (Some p) →
  done_at h (Some p) = true →
  (∀ j e, j < it → awaitables !! j = Some e → done_at h e = false) →
  ∃ h', awaitAny_resume h awaitables = (h', AnyReturn it) ∧
        ∀ q, h' !! q =
             if decide (Some q ∈ awaitables)
             then set_awaitingCoro None <$> h !! q
             else h !! q.
Proof.
  intros Hit Hd Hfirst. unfold awaitAny_resume, Collection_begin, Collection_end.
  pose proof (awaitAny_collect_none awaitables h 0 (length awaitables)) as Hres.
  pose proof (awaitAny_collect_lookup awaitables h 0 None (length awaitables))
    as Hheap.
  destruct (awaitAny_collect h awaitables 0 None (length awaitables))
    as [[h' [p'|]] cp]; cbn [fst snd] in *.
  - destruct Hres as (i & -> & Hi & Hd' & Hbefore). exists h'. split; [|done].
    do 2 f_equal. simpl.
    destruct (Nat.lt_trichotomy i it) as [Hlt|[->|Hgt]]; [|done|].
    + rewrite (Hfirst i _ Hlt Hi) in Hd'. done.
    + rewrite (Hbefore it _ Hgt Hit) in Hd. done.
  - rewrite Forall_forall in Hres.
    rewrite (Hres (Some p)) in Hd; [done|].
    apply list_elem_of_lookup. by exists it.
Qed.

(** X6. After the yield [awaitAny] returns the first position, in iterator
    order, whose element is done, whichever completion woke the coroutine
    up, and on the way it clears the awaiting coroutine of every selected
    element and changes nothing else. *)
Theorem X6_awaitAny_resume_first_done (h : heap) (awaitables : Collection)
    (it : nat) (p : ptr) :
  awaitables !! it = Some (Some p) →
  done_at h (Some p) = true →
  (∀ j e, j < it → awaitables !! j = Some e → done_at h e = false) →
  ∃ h', awaitAny_resume h awaitables = (h', AnyReturn it) ∧
        ∀ q, h' !! q =
             if decide (Some q ∈ awaitables)
             then set_awaitingCoro None <$> h !! q
             else h !! q.
Proof. apply awaitAny_resume_first_done. Qed.

Lemma X6_witness :
  ∃ h', awaitAny_resume h_mixed [Some 1; Some 3; Some 2] = (h', AnyReturn 1).
Proof.
  destruct (X6_awaitAny_resume_first_done h_mixed [Some 1; Some 3; Some 2] 1 3)
    as (h' & Heq & _).
  - reflexivity.
  - reflexivity.
  - intros [|j] e Hj He; [simpl in He; by injection He as <- | lia].
  - by exists h'.
Defined.

(** X7. If the coroutine is woken up while no element is done, the closing
    assertions of [awaitAny] fail; by then the third loop has cleared the
    awaiting coroutine of every selected element all the same. *)
Theorem X7_awaitAny_resume_nothing_done (h : heap) (awaitables : Collection) :
  Forall (λ e, done_at h e = false) awaitables →
  ∃ h', awaitAny_resume h awaitables = (h', AnyViolation) ∧
        ∀ q, h' !! q =
             if decide (Some q ∈ awaitables)
             then set_awaitingCoro None <$> h !! q
             else h !! q.
Proof.
  intros Hnone. unfold awaitAny_resume, Collection_begin, Collection_end.
  pose proof (awaitAny_collect_none awaitables h 0 (length awaitables)) as Hres.
  pose proof (awaitAny_collect_lookup awaitables h 0 None (length awaitables))
    as Hheap.
  destruct (awaitAny_collect h awaitables 0 None (length awaitables))
    as [[h' [p'|]] cp]; cbn [fst snd] in *.
  - destruct Hres as (i & _ & Hi & Hd' & _). rewrite Forall_forall in Hnone.
    rewrite (Hnone (Some p')) in Hd'; [done|].
    apply list_elem_of_lookup. by exists i.
  - by exists h'.
Qed.

Lemma X7_witness :
  ∃ h', awaitAny_resume h_any [Some 1; Some 2] = (h', AnyViolation).
Proof.
  destruct (X7_awaitAny_resume_nothing_done h_any [Some 1; Some 2])
    as (h' & Heq & _).
  - repeat constructor.
  - by exists h'.
Defined.

(** ** The pointer overloads of [awaitAny] *)

(** X8. [awaitAny(awt1, ..., awtN)] trips its assertion on a null argument
    without touching anything.  With all arguments non-null and live and
    one of them done, it returns the first argument that is done, at once;
    awaiting the returned Awaitable then returns, or raises its stored
    exception if it is the failed one. *)
Theorem X8_awaitAny_ptrs (cur : Coro) (h : heap) (awts : list (option ptr)) :
  2 ≤ length awts ≤ 5 →
  (all_nonnull awts = false → awaitAny_ptrs cur h awts = (h, PtrViolation)) ∧
  (cur ≠ masterCoro → all_nonnull awts = true → all_live h awts →
   (∃ e, e ∈ awts ∧ done_at h e = true) →
   ∃ it p a,
     awaitAny_ptrs cur h awts = (h, PtrReturn (Some p)) ∧
     awts !! it = Some (Some p) ∧ h !! p = Some a ∧ isDone a = true ∧
     (∀ j e, j < it → awts !! j = Some e → done_at h e = false) ∧
     await cur h p =
       (h, if didFail a then AwRaise (exception a) else AwReturn)).
Proof.
  intros _. unfold awaitAny_ptrs. split.
  - by intros ->.
  - intros Hcur -> Hlive Hdone.
    destruct (awaitAny_first_done cur h awts Hcur Hlive Hdone)
      as (it & p & a & Heq & Hit & Hp & Hd & Hfirst).
    exists it, p, a. rewrite Heq, Hit. repeat split; try done.
    unfold await. destruct (decide (cur = masterCoro)); [done|]. rewrite Hp.
    unfold isDone, didComplete, didFail in *.
    destruct (state a); simpl in *; done.
Qed.

Lemma X8_witness :
  awaitAny_ptrs 5 h_mixed [Some 1; None] = (h_mixed, PtrViolation) ∧
  awaitAny_ptrs 5 h_mixed [Some 1; Some 2; Some 3] =
    (h_mixed, PtrReturn (Some 2)).
Proof.
  split.
  - apply (X8_awaitAny_ptrs 5 h_mixed [Some 1; None]); [simpl; lia | done].
  - destruct (X8_awaitAny_ptrs 5 h_mixed [Some 1; Some 2; Some 3])
      as [_ Hret]; [simpl; lia|].
    destruct Hret as (it & p & a & Heq & _).
    + done.
    + done.
    + solve_all_live.
    + exists (Some 2). split; [|reflexivity].
      apply list_elem_of_further, list_elem_of_here.
    + rewrite Heq. vm_compute in Heq. by injection Heq as <-.
Defined.

(** ** Composite Awaitables: [asyncAll] and [asyncAny] *)

Lemma only_awaiting_fields (h h' : heap) (q : ptr) (a : AwaitableImpl) :
  only_awaiting h h' → h !! q = Some a →
  ∃ a', h' !! q = Some a' ∧ state a' = state a ∧
        exception a' = exception a ∧
        didTakeCompleter a' = didTakeCompleter a.
Proof.
  intros Ho Ha. destruct (Ho q) as [E|(c & a0 & Ha0 & E)].
  - exists a. by rewrite E.
  - exists (set_awaitingCoro c a0). assert (a0 = a) as -> by congruence. done.
Qed.

Lemma resume_only (cur : Coro) (h : heap) (k : cont) :
  only_awaiting h (resume cur h k).1.1.
Proof.
  destruct k as [l it|l|]; simpl.
  - pose proof (awaitAll_resume_only cur h l it) as Ho.
    by destruct (awaitAll_resume cur h l it) as [[h' called] o].
  - pose proof (awaitAny_resume_only h l) as Ho.
    by destruct (awaitAny_resume h l) as [h' o].
  - apply only_awaiting_refl.
Qed.

Lemma finish_bound (pc : ptr) (h : heap) (co : costate) (a : AwaitableImpl) :
  h !! pc = Some a → state a = ST_Running → didTakeCompleter a = true →
  ∃ a', (finish (Some pc) h co).1 !! pc = Some a' ∧
        didTakeCompleter a' = true ∧
        match co with
        | CoSuspended _ | CoDone RViolation => state a' = ST_Running
        | CoDone RVoid | CoDone (RPos _) => state a' = ST_Completed
        | CoDone (RRaised e) => state a' = ST_Failed ∧ exception a' = e
        end.
Proof.
  intros Ha Hs Ht.
  assert (isDone a = false) as Hd
    by (unfold isDone, didComplete, didFail; by rewrite Hs).
  unfold finish, Awaitable_complete, Awaitable_fail.
  destruct co as [k|[ |it|e| ]]; rewrite ?Ha, ?Hd; simpl;
    rewrite ?lookup_insert_eq; eauto.
Qed.

Lemma bound_inv_heap (pc : ptr) (s : sys) (h' : heap) (cs : list Completer)
    (log : list event) (called : list ptr) :
  bound_inv pc s →
  Forall (λ c, mRef c ≠ Some pc) cs →
  (∀ a, s_heap s !! pc = Some a →
        ∃ a', h' !! pc = Some a' ∧ state a' = state a ∧
              exception a' = exception a ∧
              didTakeCompleter a' = didTakeCompleter a) →
  bound_inv pc (mkSys h' cs log called (s_co s)).
Proof.
  intros (Hcs & a & Ha & Ht & Hco) Hcs' Hkeep.
  destruct (Hkeep a Ha) as (a' & Ha' & Hs' & He' & Ht').
  split; [done|]. exists a'. simpl. split; [done|]. split; [congruence|].
  destruct (s_co s) as [k|[ |it|e| ]]; congruence.
Qed.

Lemma bound_inv_deliver (cur : Coro) (pc : ptr) (s : sys) (h : heap)
    (evs : list event) :
  bound_inv pc s → s_heap s !! pc = h !! pc →
  bound_inv pc (deliver cur (Some pc) s h evs).
Proof.
  intros Hinv Hpc.
  assert (bound_inv pc (mkSys h (s_completers s) (s_log s ++ evs)
                              (s_called s) (s_co s))) as Hquiet.
  { apply bound_inv_heap; [done|by destruct Hinv|].
    intros a Ha. exists a. by rewrite <- Hpc. }
  unfold deliver. destruct (s_co s) as [k|r] eqn:Hco; [|done].
  destruct (existsb (resumes cur) evs); [|done].
  destruct Hinv as (Hcs & a & Ha & Ht & Hst). rewrite Hco in Hst.
  pose proof (resume_only cur h k) as Ho.
  destruct (resume cur h k) as [[h1 called] co]. simpl in Ho.
  rewrite Hpc in Ha.
  destruct (only_awaiting_fields h h1 pc a Ho Ha) as (a1 & Ha1 & Hs1 & _ & Ht1).
  destruct (finish_bound pc h1 co a1 Ha1) as (a2 & Ha2 & Ht2 & Hst2);
    [congruence|congruence|].
  destruct (finish (Some pc) h1 co) as [h2 evs']. simpl in Ha2.
  split; [done|]. exists a2. done.
Qed.

Lemma completer_other (h : heap) (c : Completer) (pc : ptr) (h' : heap)
    (evs : list event) :
  mRef c ≠ Some pc →
  Completer_complete h c = (h', evs) ∨ (∃ e, Completer_fail h c e = (h', evs)) →
  h !! pc = h' !! pc.
Proof.
  intros Hc [Heq|[e Heq]].
  - destruct (Completer_complete_cases 0 h c)
      as [Hno|(p & a & evs0 & Hr & Ha & _ & Hyes & _)].
    + congruence.
    + rewrite Hyes in Heq. injection Heq as <- <-.
      rewrite lookup_insert_ne; [done|congruence].
  - destruct (Completer_fail_cases 0 h c e)
      as [Hno|(p & a & evs0 & Hr & Ha & _ & Hyes & _)].
    + congruence.
    + rewrite Hyes in Heq. injection Heq as <- <-.
      rewrite lookup_insert_ne; [done|congruence].
Qed.

Lemma bound_inv_step (cur : Coro) (pc : ptr) (s s' : sys) (o : mop) :
  bound_inv pc s → mstep cur (Some pc) s o = Some s' → bound_inv pc s'.
Proof.
  intros Hinv Hstep. pose proof Hinv as (Hcs & b & Hb & Ht & Hst).
  destruct o as [t|q|k|k e|q f]; simpl in Hstep.
  - injection Hstep as <-. apply bound_inv_heap; [done|done|].
    intros a Ha. exists a. rewrite lookup_insert_ne; [done|]. intros Heq.
    pose proof (Awaitable_new_fresh (s_heap s) t) as Hf. simpl in Hf.
    congruence.
  - unfold takeCompleter in Hstep.
    destruct (s_heap s !! q) as [a|] eqn:Ha; [|done].
    destruct (didTakeCompleter a) eqn:Hta; [done|]. simpl in Hstep.
    injection Hstep as <-.
    assert (q ≠ pc) as Hne by (intros ->; congruence).
    apply bound_inv_heap; [done| |].
    + apply Forall_app. split; [done|]. repeat constructor. simpl. congruence.
    + intros a0 Ha0. exists a0. by rewrite lookup_insert_ne.
  - destruct (s_completers s !! k) as [c|] eqn:Hc; [|done]. simpl in Hstep.
    assert (mRef c ≠ Some pc) as Hcpc.
    { rewrite Forall_forall in Hcs. apply Hcs. by eapply list_elem_of_lookup_2. }
    destruct (Completer_complete (s_heap s) c) as [h evs] eqn:Heq.
    injection Hstep as <-. apply bound_inv_deliver; [done|].
    eapply completer_other; [exact Hcpc|by left].
  - destruct (s_completers s !! k) as [c|] eqn:Hc; [|done]. simpl in Hstep.
    assert (mRef c ≠ Some pc) as Hcpc.
    { rewrite Forall_forall in Hcs. apply Hcs. by eapply list_elem_of_lookup_2. }
    destruct (Completer_fail (s_heap s) c e) as [h evs] eqn:Heq.
    injection Hstep as <-. apply bound_inv_deliver; [done|].
    eapply completer_other; [exact Hcpc|right; by exists e].
  - injection Hstep as <-. apply bound_inv_heap; [done|done|].
    intros a Ha. unfold Awaitable_then.
    destruct (s_heap s !! q) as [x|] eqn:Hx; [|by exists a].
    destruct (decide (q = pc)) as [->|Hne].
    + rewrite lookup_insert_eq. eexists. split; [done|].
      assert (x = a) as -> by congruence. done.
    + exists a. by rewrite lookup_insert_ne.
Qed.

Lemma bound_inv_run (cur : Coro) (pc : ptr) (script : list mop) :
  ∀ s, bound_inv pc s → bound_inv pc (run cur (Some pc) s script).
Proof.
  induction script as [|o script IH]; intros s Hinv; simpl; [done|].
  destruct (mstep cur (Some pc) s o) as [s'|] eqn:Hstep; [|done].
  apply IH. by eapply bound_inv_step.
Qed.

Lemma completers_live_fresh (s : sys) :
  completers_live s →
  Forall (λ c, mRef c ≠ Some (fresh (dom (s_heap s)))) (s_completers s).
Proof.
  intros Hlive. eapply Forall_impl; [exact Hlive|]. intros c Hc Heq.
  destruct (Hc _ Heq) as [a Ha].
  assert (s_heap s !! fresh (dom (s_heap s)) = None) as Hf
    by apply not_elem_of_dom, is_fresh.
  congruence.
Qed.

Lemma asyncAll_start (cur : Coro) (s : sys) (awaitables : Collection) :
  completers_live s →
  bound_inv (asyncAll cur s awaitables).2 (asyncAll cur s awaitables).1 ∧
  awaitAll_inv (s_called s) awaitables (asyncAll cur s awaitables).1.
Proof.
  intros Hlive. unfold asyncAll, asyncAll_body.
  set (pc := fresh (dom (s_heap s))).
  set (a0 := mkImpl "asyncAll" ST_Running None (Some (cur, true)) None
                    true true None).
  set (h0 := <[pc := a0]> (s_heap s)).
  pose proof (enter_awaitAll_inv cur
                (mkSys h0 (s_completers s) (s_log s) (s_called s) (s_co s))
                awaitables) as Hall.
  unfold enter_awaitAll in Hall. simpl in Hall.
  pose proof (awaitAll_only cur h0 awaitables) as Ho.
  destruct (awaitAll cur h0 awaitables) as [[h1 called] o]. simpl in Ho.
  assert (h0 !! pc = Some a0) as Hpc by (unfold h0; by rewrite lookup_insert_eq).
  destruct (only_awaiting_fields h0 h1 pc a0 Ho Hpc) as (a1 & Ha1 & Hs1 & _ & Ht1).
  destruct (finish_bound pc h1 (costate_of_all awaitables o) a1 Ha1 Hs1 Ht1)
    as (a2 & Ha2 & Ht2 & Hst2).
  pose proof (finish_evolves (Some pc) h1 (costate_of_all awaitables o)) as Hfin.
  destruct (finish (Some pc) h1 (costate_of_all awaitables o)) as [h2 evs].
  simpl in *. split.
  - split; [exact (completers_live_fresh s Hlive)|]. by exists a2.
  - exact (awaitAll_inv_evolves (s_called s) awaitables
             (mkSys h1 (s_completers s) (s_log s) (s_called s ++ called)
                    (costate_of_all awaitables o))
             h2 (s_completers s) (s_log s ++ evs) Hfin Hall).
Qed.

(** X11. Whatever the master side does after [asyncAll], the composite
    Awaitable tells the truth about the collection: it is Completed only
    if every selected element is Completed, and Failed only with the
    stored exception of a selected element that is Failed. *)
Theorem X11_asyncAll_composite_reflects_elements (cur : Coro) (s : sys)
    (awaitables : Collection) (script : list mop) :
  completers_live s →
  let pc := (asyncAll cur s awaitables).2 in
  let s' := run cur (Some pc) (asyncAll cur s awaitables).1 script in
  ∃ a, s_heap s' !! pc = Some a ∧
       (state a = ST_Completed →
        Forall (completed_at (s_heap s')) awaitables) ∧
       (state a = ST_Failed →
        ∃ it p b, awaitables !! it = Some (Some p) ∧
                  s_heap s' !! p = Some b ∧ state b = ST_Failed ∧
                  exception b = exception a).
Proof.
  intros Hlive pc s'. destruct (asyncAll_start cur s awaitables Hlive)
    as [Hb Hall].
  apply (bound_inv_run cur _ script) in Hb.
  apply (run_awaitAll_inv cur (Some pc) _ _ script) in Hall.
  fold pc in Hb. fold s' in Hb, Hall.
  destruct Hb as (_ & a & Ha & _ & Hst). exists a. split; [done|].
  unfold awaitAll_inv in Hall.
  destruct (s_co s') as [k|[ |it|e| ]]; split; intros Hs; try congruence.
  - by destruct Hall.
  - done.
  - destruct Hst as [Hst _]. congruence.
  - destruct Hst as [_ He].
    destruct Hall as (it' & p & b & Hit & Hpb & Hsb & Hexc & _).
    exists it', p, b. repeat split; try done. congruence.
Qed.

Lemma X11_witness :
  ∃ a, s_heap (run 9 (Some 5) (asyncAll 9 s_all [Some 1; Some 2; Some 3]).1
                   [OpComplete 0; OpFail 1 (Some 6)]) !! 5 = Some a ∧
       state a = ST_Failed ∧ exception a = Some 6.
Proof.
  destruct (X11_asyncAll_composite_reflects_elements 9 s_all
              [Some 1; Some 2; Some 3] [OpComplete 0; OpFail 1 (Some 6)])
    as (a & Ha & _ & _).
  - repeat constructor; intros p [= <-]; vm_compute; eauto.
  - exists a. split; [exact Ha|]. vm_compute in Ha. injection Ha as <-. done.
Defined.

Lemma mstep_co (cur : Coro) (bound : option ptr) (s s' : sys) (o : mop) :
  mstep cur bound s o = Some s' →
  s_co s' = s_co s ∨
  ∃ k h, s_co s = CoSuspended k ∧ s_co s' = (resume cur h k).2.
Proof.
  assert (∀ h evs, s_co (deliver cur bound s h evs) = s_co s ∨
            ∃ k h0, s_co s = CoSuspended k ∧
                    s_co (deliver cur bound s h evs) = (resume cur h0 k).2)
    as Hdel.
  { intros h evs. unfold deliver. destruct (s_co s) as [k|r]; [|by left].
    destruct (existsb (resumes cur) evs); [|by left]. right. exists k, h.
    split; [done|]. destruct (resume cur h k) as [[h1 called] co].
    by destruct (finish bound h1 co). }
  intros Hstep. destruct o as [t|q|k|k e|q f]; simpl in Hstep.
  - left. by injection Hstep as <-.
  - left. destruct (takeCompleter (s_heap s) q) as [[h c]|]; [|done].
    simpl in Hstep. by injection Hstep as <-.
  - destruct (s_completers s !! k) as [c|]; [|done]. simpl in Hstep.
    destruct (Completer_complete (s_heap s) c) as [h evs].
    injection Hstep as <-. apply Hdel.
  - destruct (s_completers s !! k) as [c|]; [|done]. simpl in Hstep.
    destruct (Completer_fail (s_heap s) c e) as [h evs].
    injection Hstep as <-. apply Hdel.
  - left. by injection Hstep as <-.
Qed.

Lemma any_shape_run (cur : Coro) (bound : option ptr)
    (awaitables : Collection) (script : list mop) :
  ∀ s, any_shape awaitables (s_co s) →
       any_shape awaitables (s_co (run cur bound s script)).
Proof.
  induction script as [|o script IH]; intros s Hsh; simpl; [done|].
  destruct (mstep cur bound s o) as [s'|] eqn:Hstep; [|done].
  apply IH. destruct (mstep_co cur bound s s' o Hstep)
    as [->|(k & h & Hk & ->)]; [done|].
  rewrite Hk in Hsh. simpl in Hsh. subst k. simpl.
  destruct (awaitAny_resume h awaitables) as [h' [it|t| ]]; done.
Qed.

Lemma asyncAny_start (cur : Coro) (s : sys) (awaitables : Collection) :
  completers_live s → awaitables ≠ [] →
  bound_inv (asyncAny cur s awaitables).2 (asyncAny cur s awaitables).1 ∧
  any_shape awaitables (s_co (asyncAny cur s awaitables).1).
Proof.
  intros Hlive Hne. unfold asyncAny, asyncAny_body.
  destruct awaitables as [|element rest]; [done|].
  set (awaitables := element :: rest).
  set (pc := fresh (dom (s_heap s))).
  set (a0 := mkImpl "asyncAny" ST_Running None (Some (cur, true)) None
                    true true None).
  set (h0 := <[pc := a0]> (s_heap s)).
  pose proof (awaitAny_only cur h0 awaitables) as Ho.
  destruct (awaitAny cur h0 awaitables) as [h1 o]. simpl in Ho.
  assert (h0 !! pc = Some a0) as Hpc by (unfold h0; by rewrite lookup_insert_eq).
  destruct (only_awaiting_fields h0 h1 pc a0 Ho Hpc) as (a1 & Ha1 & Hs1 & _ & Ht1).
  destruct (finish_bound pc h1 (costate_of_any awaitables o) a1 Ha1 Hs1 Ht1)
    as (a2 & Ha2 & Ht2 & Hst2).
  destruct (finish (Some pc) h1 (costate_of_any awaitables o)) as [h2 evs].
  simpl in *. split.
  - split; [exact (completers_live_fresh s Hlive)|]. by exists a2.
  - by destruct o.
Qed.

(** X12. The composite Awaitable of [asyncAny] on a collection that is not
    empty never fails, whatever happens to the elements: it is Running
    until [awaitAny] has returned a position, and Completed from then on,
    also when the element at that position is a failed one. *)
Theorem X12_asyncAny_composite_never_fails (cur : Coro) (s : sys)
    (awaitables : Collection) (script : list mop) :
  completers_live s → awaitables ≠ [] →
  let pc := (asyncAny cur s awaitables).2 in
  let s' := run cur (Some pc) (asyncAny cur s awaitables).1 script in
  ∃ a, s_heap s' !! pc = Some a ∧
       (state a = ST_Running ∨ state a = ST_Completed) ∧
       (state a = ST_Completed ↔ ∃ it, s_co s' = CoDone (RPos it)).
Proof.
  intros Hlive Hne pc s'.
  destruct (asyncAny_start cur s awaitables Hlive Hne) as [Hb Hsh].
  apply (bound_inv_run cur _ script) in Hb.
  apply (any_shape_run cur (Some pc) awaitables script) in Hsh.
  fold pc in Hb. fold s' in Hb, Hsh.
  destruct Hb as (_ & a & Ha & _ & Hst). exists a. split; [done|].
  destruct (s_co s') as [k|[ |it|e| ]]; try done.
  - split; [by left|]. split; [congruence|]. by intros [it Hit].
  - split; [by right|]. split; [by exists it|done].
  - split; [by left|]. split; [congruence|]. by intros [it Hit].
Qed.

Lemma X12_witness :
  ∃ a, s_heap (run 9 (Some 4) (asyncAny 9 s_any [Some 1; Some 2]).1
                   [OpFail 1 (Some 6)]) !! 4 = Some a ∧
       state a = ST_Completed.
Proof.
  destruct (X12_asyncAny_composite_never_fails 9 s_any [Some 1; Some 2]
              [OpFail 1 (Some 6)]) as (a & Ha & _ & Hiff).
  - repeat constructor; intros p [= <-]; vm_compute; eauto.
  - done.
  - exists a. split; [exact Ha|]. apply Hiff. by exists 1.
Defined.

(** ** [Awaitable::wrap] *)



(** X15. After the yield the pointer overloads of [awaitAny] return the
    first argument, in argument order, that is done. *)
Theorem X15_awaitAny_ptrs_resume (h : heap) (awts : list (option ptr))
    (it : nat) (p : ptr) :
  2 ≤ length awts ≤ 5 →
  awts !! it = Some (Some p) →
  done_at h (Some p) = true →
  (∀ j e, j < it → awts !! j = Some e → done_at h e = false) →
  ∃ h', awaitAny_ptrs_resume h awts = (h', PtrReturn (Some p)) ∧
        ∀ q, h' !! q =
             if decide (Some q ∈ awts)
             then set_awaitingCoro None <$> h !! q
             else h !! q.
Proof.
  intros _ Hit Hd Hfirst.
  destruct (awaitAny_resume_first_done h awts it p Hit Hd Hfirst)
    as (h' & Heq & Hheap).
  exists h'. split; [|done]. unfold awaitAny_ptrs_resume. by rewrite Heq, Hit.
Qed.

Lemma X15_witness :
  ∃ h', awaitAny_ptrs_resume h_mixed [Some 1; Some 3; Some 2] =
          (h', PtrReturn (Some 3)).
Proof.
  destruct (X15_awaitAny_ptrs_resume h_mixed [Some 1; Some 3; Some 2] 1 3)
    as (h' & Heq & _).
  - simpl. lia.
  - reflexivity.
  - reflexivity.
  - intros [|j] e Hj He; [simpl in He; by injection He as <- | lia].
  - by exists h'.
Defined.

(** * [awaitAll] against the master side, without failed assertions *)

Lemma free_at_keeps (cur : Coro) (h h' : heap) (e : option ptr) :
  keeps_waiters h h' → free_at cur h e → free_at cur h' e.
Proof.
  intros Hk Hf q ->. destruct (Hf q eq_refl) as (a & Ha & Hfree).
  destruct (Hk q a Ha) as (a' & Ha' & Hw & Hd). exists a'. split; [done|].
  intros Hd'. rewrite Hw. apply Hfree.
  destruct (isDone a) eqn:Hda; [|done]. rewrite Hd in Hd'; done.
Qed.

Lemma free_at_register (cur : Coro) (h : heap) (q : ptr) (b : AwaitableImpl)
    (e : option ptr) :
  h !! q = Some b →
  free_at cur h e → free_at cur (<[q := set_awaitingCoro (Some cur) b]> h) e.
Proof.
  intros Hb Hf x ->. destruct (Hf x eq_refl) as (a & Ha & Hfree).
  destruct (decide (x = q)) as [->|Hne].
  - rewrite lookup_insert_eq. eexists. split; [done|]. by right.
  - rewrite lookup_insert_ne by done. by exists a.
Qed.

Lemma awaits_only_no_new (cur : Coro) (h h' : heap) (who : option ptr) :
  no_new_waiters cur h h' → awaits_only cur h who → awaits_only cur h' who.
Proof.
  intros Hn Ho q b' Hb' Hw Hd.
  destruct (Hn q b' Hb' Hw Hd) as (b & Hb & Hwb & Hdb). by eapply Ho.
Qed.

Lemma same_waiters_keeps (h h' : heap) :
  same_waiters h h' → keeps_waiters h h'.
Proof.
  intros Hs q a Ha. specialize (Hs q). rewrite Ha in Hs.
  destruct (h' !! q) as [a'|]; [|done]. destruct Hs as [Hst Hw].
  exists a'. split; [done|]. split; [done|].
  by rewrite (isDone_same_state a a').
Qed.

Lemma same_waiters_no_new (cur : Coro) (h h' : heap) :
  same_waiters h h' → no_new_waiters cur h h'.
Proof.
  intros Hs q b' Hb' Hw Hd. specialize (Hs q). rewrite Hb' in Hs.
  destruct (h !! q) as [b|]; [|congruence]. destruct Hs as [Hst Hwb].
  exists b. split; [done|]. split; [congruence|].
  by rewrite <- (isDone_same_state b b').
Qed.

Lemma same_waiters_stays (cur : Coro) (h h' : heap) :
  same_waiters h h' → stays_waiting cur h h'.
Proof.
  intros Hs q b Hb Hw Hd. specialize (Hs q). rewrite Hb in Hs.
  destruct (h' !! q) as [b'|]; [|done]. destruct Hs as [Hst Hwb].
  exists b'. split; [done|]. split; [congruence|].
  by rewrite (isDone_same_state b b').
Qed.

Lemma terminal_is_done (a : AwaitableImpl) (st : State) (e : exception_ptr) :
  st = ST_Completed ∨ st = ST_Failed → isDone (set_state st e a) = true.
Proof. intros [-> | ->]; done. Qed.

Lemma insert_terminal_evolves (h : heap) (p : ptr) (a : AwaitableImpl)
    (st : State) (e : exception_ptr) :
  h !! p = Some a → isDone a = false → st = ST_Completed ∨ st = ST_Failed →
  evolves h (<[p := set_state st e a]> h).
Proof.
  intros Ha Hd Hst. apply (insert_evolves h p a); [done| |congruence].
  simpl. unfold isDone, didComplete, didFail in Hd.
  destruct (state a), Hst as [-> | ->]; done.
Qed.

Lemma insert_terminal_keeps (h : heap) (p : ptr) (a : AwaitableImpl)
    (st : State) (e : exception_ptr) :
  h !! p = Some a → st = ST_Completed ∨ st = ST_Failed →
  keeps_waiters h (<[p := set_state st e a]> h).
Proof.
  intros Ha Hst q b Hb. destruct (decide (q = p)) as [->|Hne].
  - rewrite lookup_insert_eq. eexists. split; [done|].
    assert (b = a) as -> by congruence. split; [done|]. intros _.
    by apply terminal_is_done.
  - rewrite lookup_insert_ne by done. by exists b.
Qed.

Lemma insert_terminal_no_new (cur : Coro) (h : heap) (p : ptr)
    (a : AwaitableImpl) (st : State) (e : exception_ptr) :
  st = ST_Completed ∨ st = ST_Failed →
  no_new_waiters cur h (<[p := set_state st e a]> h).
Proof.
  intros Hst q b' Hb' Hw Hd. destruct (decide (q = p)) as [->|Hne].
  - rewrite lookup_insert_eq in Hb'. injection Hb' as <-.
    by rewrite terminal_is_done in Hd.
  - rewrite lookup_insert_ne in Hb' by done. by exists b'.
Qed.

Lemma insert_terminal_stays (cur : Coro) (h : heap) (p : ptr)
    (a : AwaitableImpl) (st : State) (e : exception_ptr) :
  h !! p = Some a → awaitingCoro a ≠ Some cur →
  stays_waiting cur h (<[p := set_state st e a]> h).
Proof.
  intros Ha Hw q b Hb Hwb Hd. destruct (decide (q = p)) as [->|Hne].
  - congruence.
  - rewrite lookup_insert_ne by done. by exists b.
Qed.

Lemma finish_cases (bound : option ptr) (h : heap) (co : costate) :
  (finish bound h co).1 = h ∨
  ∃ pc a st e r,
    co = CoDone r ∧ h !! pc = Some a ∧ isDone a = false ∧
    (st = ST_Completed ∨ st = ST_Failed) ∧
    (finish bound h co).1 = <[pc := set_state st e a]> h.
Proof.
  unfold finish, Awaitable_complete, Awaitable_fail.
  destruct bound as [pc|]; [|by left].
  destruct co as [k|[ |it|e| ]]; try (by left);
    destruct (h !! pc) as [a|] eqn:Ha; try (by left);
    destruct (isDone a) eqn:Hd; try (by left); right.
  - exists pc, a, ST_Completed, None, RVoid. repeat split; try done. by left.
  - exists pc, a, ST_Completed, None, (RPos it). repeat split; try done.
    by left.
  - exists pc, a, ST_Failed, e, (RRaised e). repeat split; try done. by right.
Qed.

Lemma awaitAll_loop_no_violation (cur : Coro) (rest : Collection) :
  cur ≠ masterCoro →
  ∀ h it, Forall (free_at cur h) rest →
          (awaitAll_loop cur h rest it).2 ≠ AllViolation.
Proof.
  intros Hcur. induction rest as [|[awt|] rest IH]; intros h it Hfree; simpl.
  - done.
  - apply Forall_cons in Hfree as [Hel Hfree].
    destruct (Hel awt eq_refl) as (a & Ha & Hw). unfold await.
    destruct (decide (cur = masterCoro)); [done|]. rewrite Ha.
    assert (∀ o, (let '(h'', called, o') := awaitAll_loop cur h rest (S it) in
                  (h'', awt :: called, o')).2 = o →
                 (awaitAll_loop cur h rest (S it)).2 = o) as Hproj.
    { intros o. by destruct (awaitAll_loop cur h rest (S it)) as [[? ?] ?]. }
    destruct (state a) eqn:Hs.
    + rewrite bool_decide_eq_true_2.
      * destruct (boundCoro a) as [[b [|]]|]; done.
      * apply Hw. unfold isDone, didComplete, didFail. by rewrite Hs.
    + rewrite bool_decide_eq_true_2.
      * destruct (boundCoro a) as [[b [|]]|]; done.
      * apply Hw. unfold isDone, didComplete, didFail. by rewrite Hs.
    + intros Hv. apply Hproj in Hv. by apply (IH h (S it)).
    + done.
  - apply Forall_cons in Hfree as [_ Hfree]. by apply IH.
Qed.

(** The loop of [awaitAll], entered at position [it0] by a coroutine that
    awaits nothing, leaves the system in an [awaitAll_state]. *)
Lemma awaitAll_loop_state (cur : Coro) (c0 called0 : list ptr)
    (awaitables : Collection) (it0 : nat) (h : heap)
    (cs : list Completer) (log : list event) :
  cur ≠ masterCoro →
  Forall (free_at cur h) awaitables →
  awaits_only cur h None →
  called0 = c0 ++ selected (take it0 awaitables) →
  Forall (completed_at h) (take it0 awaitables) →
  let '(h1, called, o) := awaitAll_loop cur h (drop it0 awaitables) it0 in
  awaitAll_state cur c0 awaitables
    (mkSys h1 cs log (called0 ++ called) (costate_of_all awaitables o)) ∧
  match o with
  | AllYield it' _ => it0 ≤ it'
  | AllViolation => False
  | _ => True
  end.
Proof.
  intros Hcur Hfree Hnone -> Hpre.
  pose proof (awaitAll_loop_spec cur (drop it0 awaitables) h it0) as Hl.
  pose proof (awaitAll_loop_no_violation cur (drop it0 awaitables) Hcur h it0
                (Forall_drop _ _ _ Hfree)) as Hnv.
  destruct (awaitAll_loop cur h (drop it0 awaitables) it0)
    as [[h1 called] [ |it' e|it' t| ]]; simpl in *; [| | |done].
  - destruct Hl as (-> & -> & Hrest). split; [|done]. split; [done|]. simpl.
    split.
    + rewrite <- app_assoc. f_equal. unfold selected.
      by rewrite <- omap_app, take_drop.
    + rewrite <- (take_drop it0 awaitables). by apply Forall_app.
  - destruct Hl as (-> & i & q & b & -> & Hi & Hb & Hsb & He & -> & Hbefore).
    rewrite lookup_drop in Hi. split; [|done]. split; [done|]. simpl.
    exists (it0 + i), q, b. repeat split; try done.
    + rewrite <- app_assoc. f_equal.
      rewrite (selected_take_drop awaitables it0 (S i)).
      do 2 f_equal. lia.
    + rewrite <- take_take_drop. by apply Forall_app.
  - destruct Hl as (i & q & b & -> & Hi & Hb & Hd & -> & -> & Hbefore).
    rewrite lookup_drop in Hi. split; [|lia]. split; simpl.
    + eapply Forall_impl; [exact Hfree|]. intros x. by apply free_at_register.
    + split; [done|]. exists q, (set_awaitingCoro (Some cur) b).
      rewrite lookup_insert_eq. repeat split; try done.
      * intros x y Hy Hw Hdy. destruct (decide (x = q)) as [->|Hne]; [done|].
        rewrite lookup_insert_ne in Hy by done.
        by specialize (Hnone x y Hy Hw Hdy).
      * rewrite <- app_assoc. f_equal.
        rewrite (selected_take_drop awaitables it0 (S i)).
        do 2 f_equal. lia.
      * eapply Forall_completed_evolves.
        -- apply only_awaiting_evolves. by apply insert_only_awaiting.
        -- rewrite <- take_take_drop. by apply Forall_app.
Qed.

Lemma awaitAll_state_calm (cur : Coro) (c0 : list ptr)
    (awaitables : Collection) (s : sys) (h' : heap) (cs : list Completer)
    (log : list event) :
  awaitAll_state cur c0 awaitables s →
  evolves (s_heap s) h' → keeps_waiters (s_heap s) h' →
  no_new_waiters cur (s_heap s) h' →
  ((∃ k, s_co s = CoSuspended k) → stays_waiting cur (s_heap s) h') →
  awaitAll_state cur c0 awaitables (mkSys h' cs log (s_called s) (s_co s)).
Proof.
  intros [Hfree Hst] Hev Hk Hn Hstay. split; simpl.
  { eapply Forall_impl; [exact Hfree|]. intros e. by apply free_at_keeps. }
  destruct (s_co s) as [[l it|l|]|[ |it|e| ]]; try done.
  - destruct Hst as (-> & p & a & Hit & Ha & Hd & Hw & Honly & Hc & Hpre).
    split; [done|].
    destruct (Hstay (ex_intro _ _ eq_refl) p a Ha Hw Hd) as (a' & Ha' & Hw' & Hd').
    exists p, a'. repeat split; try done.
    + by eapply awaits_only_no_new.
    + by eapply Forall_completed_evolves.
  - destruct Hst as [Hc Hall]. split; [done|].
    by eapply Forall_completed_evolves.
  - destruct Hst as (it & p & a & Hit & Ha & Hs & He & Hc & Hpre).
    destruct (Hev p a Ha) as (a' & Ha' & _ & Hsame).
    destruct Hsame as [Hs' He']; [apply isDone_state; by right|].
    exists it, p, a'. repeat split; try done; try congruence.
    by eapply Forall_completed_evolves.
Qed.

Lemma awaitAll_state_finish (cur : Coro) (bound : option ptr) (c0 : list ptr)
    (awaitables : Collection) (h1 : heap) (cs : list Completer)
    (log log' : list event) (called : list ptr) (co : costate) :
  awaitAll_state cur c0 awaitables (mkSys h1 cs log called co) →
  awaitAll_state cur c0 awaitables
    (mkSys (finish bound h1 co).1 cs log' called co).
Proof.
  intros Hst.
  destruct (finish_cases bound h1 co)
    as [->|(pc & a & st & e & r & -> & Ha & Hd & Hterm & ->)].
  - destruct Hst as [Hfree Hco]. by split.
  - apply (awaitAll_state_calm cur c0 awaitables
             (mkSys h1 cs log called (CoDone r))); simpl; try done.
    + by apply insert_terminal_evolves.
    + by apply insert_terminal_keeps.
    + by apply insert_terminal_no_new.
    + by intros [k Hk].
Qed.

(** The awaited element becomes terminal and the coroutine is resumed. *)
Lemma awaitAll_state_wake (cur : Coro) (bound : option ptr) (c0 : list ptr)
    (awaitables : Collection) (s : sys) (it : nat) (p : ptr)
    (a : AwaitableImpl) (st : State) (e : exception_ptr) (evs : list event) :
  cur ≠ masterCoro →
  awaitAll_state cur c0 awaitables s →
  s_co s = CoSuspended (KAwaitAll awaitables it) →
  awaitables !! it = Some (Some p) →
  s_heap s !! p = Some a →
  st = ST_Completed ∨ st = ST_Failed →
  existsb (resumes cur) evs = true →
  let s2 := deliver cur bound s (<[p := set_state st e a]> (s_heap s)) evs in
  awaitAll_state cur c0 awaitables s2 ∧
  (st = ST_Failed → s_co s2 = CoDone (RRaised e) ∧ s_called s2 = s_called s) ∧
  (st = ST_Completed → went_on it (s_co s2)).
Proof.
  intros Hcur [Hfree Hst] Hco Hit Ha Hterm Hevs. rewrite Hco in Hst.
  destruct Hst as (_ & p' & a' & Hit' & Ha' & Hd & Hw & Honly & Hc & Hpre).
  assert (p' = p) as -> by congruence. assert (a' = a) as -> by congruence.
  set (h' := <[p := set_state st e a]> (s_heap s)).
  assert (h' !! p = Some (set_state st e a)) as Hp'
    by (unfold h'; by rewrite lookup_insert_eq).
  assert (evolves (s_heap s) h') as Hev by by apply insert_terminal_evolves.
  assert (Forall (free_at cur h') awaitables) as Hfree'.
  { eapply Forall_impl; [exact Hfree|]. intros x.
    apply free_at_keeps. by apply insert_terminal_keeps. }
  assert (awaits_only cur h' None) as Hnone.
  { intros q b Hb Hwb Hdb. destruct (decide (q = p)) as [->|Hne].
    - rewrite Hp' in Hb. injection Hb as <-.
      by rewrite terminal_is_done in Hdb.
    - unfold h' in Hb. rewrite lookup_insert_ne in Hb by done.
      specialize (Honly q b Hb Hwb Hdb). congruence. }
  assert (Forall (completed_at h') (take it awaitables)) as Hpre'
    by by eapply Forall_completed_evolves.
  cbv zeta. unfold deliver. rewrite Hco, Hevs. fold h'.
  unfold resume, awaitAll_resume. rewrite Hit. unfold await_resume.
  rewrite Hp'. destruct Hterm as [-> | ->]; simpl.
  - pose proof (awaitAll_loop_state cur c0 (s_called s) awaitables (S it) h'
                  (s_completers s) (s_log s) Hcur Hfree' Hnone Hc) as Hloop.
    destruct (awaitAll_loop cur h' (drop (S it) awaitables) (S it))
      as [[h1 called] o].
    destruct Hloop as [Hstate Ho].
    { rewrite (take_S_r _ _ _ Hit). apply Forall_app. split; [done|].
      repeat constructor. intros q [= <-]. eexists. split; [exact Hp'|done]. }
    pose proof (awaitAll_state_finish cur bound c0 awaitables h1
                  (s_completers s) (s_log s)
                  (s_log s ++ evs ++ (finish bound h1
                                        (costate_of_all awaitables o)).2)
                  (s_called s ++ called) (costate_of_all awaitables o) Hstate)
      as Hfin.
    destruct (finish bound h1 (costate_of_all awaitables o)) as [h2 evs'].
    simpl in *. split; [done|]. split; [done|]. intros _.
    destruct o as [ |it' e'|it' t| ]; simpl; try done; lia.
  - assert (awaitAll_state cur c0 awaitables
              (mkSys h' (s_completers s) (s_log s) (s_called s ++ [])
                     (CoDone (RRaised e)))) as Hstate.
    { split; [done|]. simpl. exists it, p, (set_state ST_Failed e a).
      rewrite app_nil_r. done. }
    pose proof (awaitAll_state_finish cur bound c0 awaitables h'
                  (s_completers s) (s_log s)
                  (s_log s ++ evs ++ (finish bound h' (CoDone (RRaised e))).2)
                  (s_called s ++ []) (CoDone (RRaised e)) Hstate) as Hfin.
    destruct (finish bound h' (CoDone (RRaised e))) as [h2 evs'].
    simpl in *. split; [done|]. split; [|done]. intros _.
    by rewrite app_nil_r.
Qed.

Lemma awaitAll_state_deliver (cur : Coro) (bound : option ptr) (c0 : list ptr)
    (awaitables : Collection) (s : sys) (p : ptr) (a : AwaitableImpl)
    (st : State) (e : exception_ptr) (evs : list event) :
  cur ≠ masterCoro →
  awaitAll_state cur c0 awaitables s →
  s_heap s !! p = Some a → isDone a = false →
  st = ST_Completed ∨ st = ST_Failed →
  existsb (resumes cur) evs = bool_decide (awaitingCoro a = Some cur) →
  awaitAll_state cur c0 awaitables
    (deliver cur bound s (<[p := set_state st e a]> (s_heap s)) evs).
Proof.
  intros Hcur Hstate Ha Hd Hterm Hevs.
  assert (awaitingCoro a ≠ Some cur ∨ (∃ r, s_co s = CoDone r) →
          awaitAll_state cur c0 awaitables
            (mkSys (<[p := set_state st e a]> (s_heap s)) (s_completers s)
                   (s_log s ++ evs) (s_called s) (s_co s))) as Hquiet.
  { intros Hcase. apply awaitAll_state_calm; try done.
    - by apply insert_terminal_evolves.
    - by apply insert_terminal_keeps.
    - by apply insert_terminal_no_new.
    - intros [k Hk]. destruct Hcase as [Hw|[r Hr]]; [|congruence].
      by apply insert_terminal_stays. }
  destruct (s_co s) as [k|r] eqn:Hco.
  - case_bool_decide as Hw.
    + pose proof Hstate as [_ Hst]. rewrite Hco in Hst.
      destruct k as [l it|l|]; try done.
      destruct Hst as (-> & p' & a' & Hit & Ha' & _ & Hw' & Honly & _).
      assert (p' = p) as ->.
      { specialize (Honly p a Ha Hw Hd). congruence. }
      by destruct (awaitAll_state_wake cur bound c0 awaitables s it p a st e
                     evs Hcur Hstate Hco Hit Ha Hterm Hevs) as [Hres _].
    + unfold deliver. rewrite Hco, Hevs. apply Hquiet. by left.
  - unfold deliver. rewrite Hco. apply Hquiet. right. by exists r.
Qed.

Lemma awaitAll_state_step (cur : Coro) (bound : option ptr) (c0 : list ptr)
    (awaitables : Collection) (s s' : sys) (o : mop) :
  cur ≠ masterCoro →
  awaitAll_state cur c0 awaitables s →
  mstep cur bound s o = Some s' →
  awaitAll_state cur c0 awaitables s'.
Proof.
  intros Hcur Hstate Hstep.
  assert (∀ h' cs log, same_waiters (s_heap s) h' → evolves (s_heap s) h' →
            awaitAll_state cur c0 awaitables
              (mkSys h' cs log (s_called s) (s_co s))) as Hquiet.
  { intros h' cs log Hsame Hev. apply awaitAll_state_calm; try done.
    - by apply same_waiters_keeps.
    - by apply same_waiters_no_new.
    - intros _. by apply same_waiters_stays. }
  assert (awaitAll_state cur c0 awaitables
            (deliver cur bound s (s_heap s) [])) as Hnoop.
  { unfold deliver. destruct (s_co s) as [k|r] eqn:Hco; cbn [existsb];
      apply Hquiet; try apply same_waiters_refl; apply evolves_refl. }
  destruct o as [t|q|k|k e|q f]; simpl in Hstep.
  - injection Hstep as <-. apply Hquiet.
    + apply (Awaitable_new_same_waiters (s_heap s) t).
    + apply (Awaitable_new_evolves (s_heap s) t).
  - destruct (takeCompleter (s_heap s) q) as [[h c]|] eqn:Ht; [|done].
    simpl in Hstep. injection Hstep as <-. apply Hquiet.
    + by eapply takeCompleter_same_waiters.
    + by eapply takeCompleter_evolves.
  - destruct (s_completers s !! k) as [c|] eqn:Hc; [|done]. simpl in Hstep.
    destruct (Completer_complete_cases cur (s_heap s) c)
      as [Heq|(p & a & evs & Hr & Ha & Hd & Heq & Hevs)];
      rewrite Heq in Hstep; injection Hstep as <-; [done|].
    apply awaitAll_state_deliver; try done. by left.
  - destruct (s_completers s !! k) as [c|] eqn:Hc; [|done]. simpl in Hstep.
    destruct (Completer_fail_cases cur (s_heap s) c e)
      as [Heq|(p & a & evs & Hr & Ha & Hd & Heq & Hevs)];
      rewrite Heq in Hstep; injection Hstep as <-; [done|].
    apply awaitAll_state_deliver; try done. by right.
  - injection Hstep as <-. apply Hquiet.
    + apply Awaitable_then_same_waiters.
    + apply Awaitable_then_evolves.
Qed.

Lemma awaitAll_state_run (cur : Coro) (bound : option ptr) (c0 : list ptr)
    (awaitables : Collection) (script : list mop) :
  cur ≠ masterCoro →
  ∀ s, awaitAll_state cur c0 awaitables s →
       awaitAll_state cur c0 awaitables (run cur bound s script).
Proof.
  intros Hcur. induction script as [|o script IH]; intros s Hst; simpl; [done|].
  destruct (mstep cur bound s o) as [s'|] eqn:Hstep; [|done].
  apply IH. by eapply awaitAll_state_step.
Qed.

Lemma awaitAll_state_enter (cur : Coro) (s : sys) (awaitables : Collection) :
  cur ≠ masterCoro →
  Forall (free_at cur (s_heap s)) awaitables →
  awaits_only cur (s_heap s) None →
  awaitAll_state cur (s_called s) awaitables (enter_awaitAll cur s awaitables).
Proof.
  intros Hcur Hfree Hnone. unfold enter_awaitAll, awaitAll, Collection_begin.
  destruct (decide (cur = masterCoro)); [done|].
  pose proof (awaitAll_loop_state cur (s_called s) (s_called s) awaitables 0
                (s_heap s) (s_completers s) (s_log s) Hcur Hfree Hnone) as Hl.
  rewrite drop_0 in Hl.
  destruct (awaitAll_loop cur (s_heap s) awaitables 0) as [[h1 called] o].
  apply Hl.
  - rewrite take_0. simpl. by rewrite app_nil_r.
  - rewrite take_0. constructor.
Qed.

(** While [awaitAll] is suspended at [it], a completer of the awaited
    element that has not expired wakes it up: failing the element makes
    [awaitAll] raise the exception, completing it makes the loop go on. *)
Lemma awaitAll_progress (cur : Coro) (bound : option ptr) (c0 : list ptr)
    (awaitables : Collection) (s : sys) (it : nat) (p : ptr) (k : nat)
    (c : Completer) :
  cur ≠ masterCoro →
  awaitAll_state cur c0 awaitables s →
  s_co s = CoSuspended (KAwaitAll awaitables it) →
  awaitables !! it = Some (Some p) →
  s_completers s !! k = Some c → mRef c = Some p →
  isExpired (s_heap s) c = false →
  (∀ e, ∃ s2, mstep cur bound s (OpFail k e) = Some s2 ∧
              s_co s2 = CoDone (RRaised e) ∧ s_called s2 = s_called s ∧
              awaitAll_state cur c0 awaitables s2) ∧
  (∃ s2, mstep cur bound s (OpComplete k) = Some s2 ∧
         awaitAll_state cur c0 awaitables s2 ∧ went_on it (s_co s2)).
Proof.
  intros Hcur Hstate Hco Hit Hc Hr Hexp.
  pose proof Hstate as [_ Hst]. rewrite Hco in Hst.
  destruct Hst as (_ & p' & a & Hit' & Ha & Hd & Hw & _).
  assert (p' = p) as -> by congruence.
  assert (∀ mk, (∀ x, resumes cur (mk x) = bool_decide (x = cur)) →
            existsb (resumes cur)
              (match thenSlot a with Some f => [EvThen f] | None => [] end ++
               match awaitingCoro a with Some x => [mk x] | None => [] end)
            = true) as Hresumes.
  { intros mk Hmk. rewrite (resumes_events cur _ _ mk Hmk).
    by apply bool_decide_eq_true_2. }
  split.
  - intros e. simpl. rewrite Hc. simpl. unfold Completer_fail.
    rewrite Hexp, Hr. unfold Awaitable_fail. rewrite Ha, Hd.
    eexists. split; [done|].
    destruct (awaitAll_state_wake cur bound c0 awaitables s it p a ST_Failed e
                _ Hcur Hstate Hco Hit Ha (or_intror eq_refl)
                (Hresumes (λ x, EvYieldExceptionTo x e) (λ x, eq_refl)))
      as (Hs2 & Hfail & _).
    destruct (Hfail eq_refl) as [Hraised Hcalled]. done.
  - simpl. rewrite Hc. simpl. unfold Completer_complete.
    rewrite Hexp, Hr. unfold Awaitable_complete. rewrite Ha, Hd.
    eexists. split; [done|].
    destruct (awaitAll_state_wake cur bound c0 awaitables s it p a ST_Completed
                None _ Hcur Hstate Hco Hit Ha (or_introl eq_refl)
                (Hresumes EvYieldTo (λ x, eq_refl)))
      as (Hs2 & _ & Hgo).
    split; [done|]. by apply Hgo.
Qed.

(** C3. [awaitAll] calls [await()] on the selected elements in iterator
    order: after any amount of master-side activity the calls made so far
    are the selected elements of a prefix of the collection.  When the
    [await()] of an element raises, [awaitAll] raises that element's stored
    exception, the calls stop at that element (no later element is
    awaited), and every selected element before it is in state Completed,
    then and ever after.  With the elements before position [it] completed
    and the one at [it] failed, this happens at once and without a change
    to the heap.

    For a caller that is a coroutine awaiting nothing, and elements that
    are live and not awaited by another coroutine, no assertion fails and
    the run is one of: suspended at a pending element with everything
    before it Completed, returned with everything Completed, raised.
    While it is suspended, failing the awaited element with [e] through a
    completer makes [awaitAll] raise [e] on the spot, with no further
    [await()] call; completing it makes the loop go on to a later element,
    to its end, or to the failure of a later element. *)
Theorem C3_awaitAll_short_circuits (cur : Coro) (bound : option ptr)
    (s : sys) (awaitables : Collection) (script : list mop) :
  let s' := run cur bound (enter_awaitAll cur s awaitables) script in
  (∃ n, s_called s' = s_called s ++ selected (take n awaitables)) ∧
  (∀ e, s_co s' = CoDone (RRaised e) →
     ∃ it p a,
       awaitables !! it = Some (Some p) ∧
       s_heap s' !! p = Some a ∧ state a = ST_Failed ∧ exception a = e ∧
       s_called s' = s_called s ++ selected (take (S it) awaitables) ∧
       Forall (completed_at (s_heap s')) (take it awaitables)) ∧
  (s_co s' = CoDone RVoid →
     s_called s' = s_called s ++ selected awaitables ∧
     Forall (completed_at (s_heap s')) awaitables) ∧
  (∀ it p a,
     cur ≠ masterCoro →
     awaitables !! it = Some (Some p) →
     s_heap s !! p = Some a → state a = ST_Failed →
     Forall (completed_at (s_heap s)) (take it awaitables) →
     awaitAll cur (s_heap s) awaitables =
       (s_heap s, selected (take (S it) awaitables),
        AllRaise it (exception a))) ∧
  (cur ≠ masterCoro →
   Forall (free_at cur (s_heap s)) awaitables →
   awaits_only cur (s_heap s) None →
   awaitAll_state cur (s_called s) awaitables s' ∧
   ∀ it p k c,
     s_co s' = CoSuspended (KAwaitAll awaitables it) →
     awaitables !! it = Some (Some p) →
     s_completers s' !! k = Some c → mRef c = Some p →
     isExpired (s_heap s') c = false →
     (∀ e, ∃ s2, mstep cur bound s' (OpFail k e) = Some s2 ∧
                 s_co s2 = CoDone (RRaised e) ∧
                 s_called s2 = s_called s' ∧
                 awaitAll_state cur (s_called s) awaitables s2) ∧
     (∃ s2, mstep cur bound s' (OpComplete k) = Some s2 ∧
            awaitAll_state cur (s_called s) awaitables s2 ∧
            went_on it (s_co s2))).
Proof.
  intros s'.
  pose proof (run_awaitAll_inv cur bound (s_called s) awaitables script _
                (enter_awaitAll_inv cur s awaitables)) as Hinv.
  fold s' in Hinv. unfold awaitAll_inv in Hinv.
  split; [|split; [|split; [|split]]].
  - destruct (s_co s') as [[l it|l|]|[ |it|e| ]]; try done.
    + destruct Hinv as (_ & _ & Hc & _). by exists (S it).
    + destruct Hinv as (Hc & _). exists (length awaitables).
      by rewrite take_ge.
    + destruct Hinv as (it & p & a & _ & _ & _ & _ & Hc & _). by exists (S it).
  - intros e He. by rewrite He in Hinv.
  - intros He. by rewrite He in Hinv.
  - intros it p a Hcur Hit Ha Hs Hall. unfold awaitAll, Collection_begin.
    destruct (decide (cur = masterCoro)); [done|].
    by rewrite (awaitAll_loop_raises cur _ _ Hcur 0 it p a).
  - intros Hcur Hfree Hnone.
    assert (awaitAll_state cur (s_called s) awaitables s') as Hstate.
    { apply awaitAll_state_run; [done|]. by apply awaitAll_state_enter. }
    split; [done|]. intros it p k c Hco Hit Hc Hr Hexp.
    by apply (awaitAll_progress cur bound (s_called s) awaitables s' it p k c).
Qed.

Lemma C3_witness :
  (∃ it p a,
    [Some 1; Some 2; None; Some 3; Some 4] !! it = Some (Some p) ∧
    s_heap (run 5 None
              (enter_awaitAll 5 s_all [Some 1; Some 2; None; Some 3; Some 4])
              [OpFail 1 (Some 9); OpComplete 0]) !! p = Some a ∧
    state a = ST_Failed ∧ exception a = Some 9 ∧
    s_called (run 5 None
                (enter_awaitAll 5 s_all [Some 1; Some 2; None; Some 3; Some 4])
                [OpFail 1 (Some 9); OpComplete 0]) =
      s_called s_all ++
      selected (take (S it) [Some 1; Some 2; None; Some 3; Some 4])) ∧
  (∃ s2, mstep 5 None
           (run 5 None
              (enter_awaitAll 5 s_all [Some 1; Some 2; None; Some 3; Some 4])
              [OpNew "n"])
           (OpFail 0 (Some 9)) = Some s2 ∧
         s_co s2 = CoDone (RRaised (Some 9))) ∧
  (∃ s2, mstep 5 None
           (run 5 None
              (enter_awaitAll 5 s_all [Some 1; Some 2; None; Some 3; Some 4])
              [OpNew "n"])
           (OpComplete 0) = Some s2 ∧
         went_on 1 (s_co s2)).
Proof.
  split; [|split].
  - destruct (C3_awaitAll_short_circuits 5 None s_all
                [Some 1; Some 2; None; Some 3; Some 4]
                [OpFail 1 (Some 9); OpComplete 0]) as (_ & Hraise & _ & _ & _).
    destruct (Hraise (Some 9)) as (it & p & a & H1 & H2 & H3 & H4 & H5 & _).
    + vm_compute. reflexivity.
    + by exists it, p, a.
  - destruct (C3_awaitAll_short_circuits 5 None s_all
                [Some 1; Some 2; None; Some 3; Some 4] [OpNew "n"])
      as (_ & _ & _ & _ & Hstrong).
    destruct Hstrong as [_ Hwake].
    + done.
    + repeat constructor; intros q [= <-]; eexists; (split; [reflexivity|]);
        intros _; by left.
    + intros q b Hb Hw. exfalso. revert Hb Hw. unfold s_all, h_all. simpl.
      rewrite !lookup_insert. repeat case_decide; intros [= <-]; done.
    + destruct (Hwake 1 2 0 (mkCompleter (Some 2))) as [Hfail _];
        try reflexivity.
      destruct (Hfail (Some 9)) as (s2 & Hstep & Hco & _). by exists s2.
  - destruct (C3_awaitAll_short_circuits 5 None s_all
                [Some 1; Some 2; None; Some 3; Some 4] [OpNew "n"])
      as (_ & _ & _ & _ & Hstrong).
    destruct Hstrong as [_ Hwake].
    + done.
    + repeat constructor; intros q [= <-]; eexists; (split; [reflexivity|]);
        intros _; by left.
    + intros q b Hb Hw. exfalso. revert Hb Hw. unfold s_all, h_all. simpl.
      rewrite !lookup_insert. repeat case_decide; intros [= <-]; done.
    + destruct (Hwake 1 2 0 (mkCompleter (Some 2))) as [_ Hgo];
        try reflexivity.
      destruct Hgo as (s2 & Hstep & _ & Hwent). by exists s2.
Defined.

End Props.
